(** * vagrant-exec: the machine-readable reader and the wrapper operations

    A shallow embedding of [vagrantexec] (the wrapper around the [vagrant]
    binary) and of [command.ShellRunner].  Go strings are [string], a Go
    [map[string]*MachineStatus] is a [gmap string MachineStatus], a Go
    function returning [(value, error)] returns a pair whose second component
    is [option error], and a run-time panic is an explicit outcome. *)

From Stdlib Require Import ZArith Lia Ascii.
From stdpp Require Import base option list gmap strings fin_maps.

(** ** Strings *)

Module Str.

Definition comma : ascii := ","%char.
Definition newline : ascii := "010"%char.

(** [strings.Split(s, sep)] for a one-character separator: never empty, one
    more element than there are separators. *)
Fixpoint splitOn (sep : ascii) (s : string) : list string :=
  match s with
  | EmptyString => [EmptyString]
  | String c rest =>
      if decide (c = sep) then EmptyString :: splitOn sep rest
      else match splitOn sep rest with
           | h :: t => String c h :: t
           | [] => [String c EmptyString]
           end
  end.

(** [strings.Join(parts, sep)] for a one-character separator. *)
Fixpoint join (sep : ascii) (parts : list string) : string :=
  match parts with
  | [] => EmptyString
  | [p] => p
  | p :: rest => p +:+ String sep (join sep rest)
  end.

(** [strings.Cut(s, sep)]: the text before and after the first separator. *)
Fixpoint cut (sep : ascii) (s : string) : option (string * string) :=
  match s with
  | EmptyString => None
  | String c rest =>
      if decide (c = sep) then Some (EmptyString, rest)
      else match cut sep rest with
           | Some (a, b) => Some (String c a, b)
           | None => None
           end
  end.

(** [strings.Count(s, sep)]. *)
Fixpoint count (sep : ascii) (s : string) : nat :=
  match s with
  | EmptyString => 0
  | String c rest => (if decide (c = sep) then 1 else 0) + count sep rest
  end.

(** The character occurs in the string. *)
Fixpoint mem (c : ascii) (s : string) : bool :=
  match s with
  | EmptyString => false
  | String d rest => if decide (d = c) then true else mem c rest
  end.

(** [strings.HasPrefix(s, p)]. *)
Fixpoint hasPrefix (p s : string) : bool :=
  match p, s with
  | EmptyString, _ => true
  | String a p', String b s' => if decide (a = b) then hasPrefix p' s' else false
  | String _ _, EmptyString => false
  end.


(** [strings.ReplaceAll(s, old, new)] for a non-empty [old]: the leftmost
    occurrences, not overlapping.  [skip] counts the characters of an
    occurrence already replaced that are still to be passed over. *)
Fixpoint replaceFrom (old new : string) (skip : nat) (s : string) : string :=
  match s with
  | EmptyString => EmptyString
  | String c rest =>
      match skip with
      | S k => replaceFrom old new k rest
      | O =>
          if hasPrefix old s
          then new +:+ replaceFrom old new (String.length old - 1) rest
          else String c (replaceFrom old new 0 rest)
      end
  end.

Definition replaceAll (old new s : string) : string := replaceFrom old new 0 s.

(** An optional sign and decimal digits, as [strconv.ParseInt(s, 10, _)]
    reads them (the range check apart). *)
Fixpoint parseDigits (acc : Z) (s : string) : option Z :=
  match s with
  | EmptyString => Some acc
  | String c rest =>
      match Ascii.is_nat c with
      | Some d => parseDigits (10 * acc + Z.of_nat d) rest
      | None => None
      end
  end.

Definition parseInt (s : string) : option Z :=
  match s with
  | EmptyString => None
  | String c rest =>
      if decide (c = "-"%char) then
        match rest with EmptyString => None | _ => Z.opp <$> parseDigits 0 rest end
      else if decide (c = "+"%char) then
        match rest with EmptyString => None | _ => parseDigits 0 rest end
      else parseDigits 0 s
  end.

End Str.

(** ** Errors, panics and results *)

(** The error values of the program.  [ExitError] is what [newExitError]
    builds; [ErrorString] is what [errors.New] builds. *)
Inductive error : Type :=
  | ExitError (cmd : string) (code : Z) (stderr : string)
  | MalformedRecordError
  | TimestampError (field : string)
  | EntryNotFoundError (mType : string)
  | ErrorString (msg : string).

Global Instance error_eq_dec : EqDecision error.
Proof. solve_decision. Defined.

(** A run-time panic: an index out of range, or an explicit [panic(msg)]. *)
Inductive panic : Type :=
  | IndexOutOfRange (index len : nat)
  | PanicMessage (msg : string).

Inductive outcome (A : Type) : Type :=
  | Returns (a : A)
  | Panics (p : panic).
Arguments Returns {A} a.
Arguments Panics {A} p.

Definition obind {A B} (o : outcome A) (k : A → outcome B) : outcome B :=
  match o with
  | Returns a => k a
  | Panics p => Panics p
  end.

(** [l[i]] of a slice. *)
Definition index {A} (l : list A) (i : nat) : outcome A :=
  match l !! i with
  | Some x => Returns x
  | None => Panics (IndexOutOfRange i (length l))
  end.

(** A loop over a slice that threads an accumulator and stops at a panic. *)
Fixpoint foldO {A S} (step : S → A → outcome S) (s : S) (l : list A) : outcome S :=
  match l with
  | [] => Returns s
  | x :: rest => obind (step s x) (λ s', foldO step s' rest)
  end.

(** ** Machine-readable records *)

Record machineInfoEntry : Type := MachineInfoEntry {
  timestamp : Z;
  target : string;
  mType : string;
  data : list string
}.

(** The placeholder the tool writes for a literal comma; the plugin pattern of
    [PluginList] spells the same text. *)
Definition commaToken : string := "%!(VAGRANT_COMMA)".

(** Modelled from the spec: the lifecycle states of a machine, missing from
    the sources at hand; the spec lists running, poweroff, saved, aborted,
    not_created and a fallback for every other string. *)
Inductive MachineState : Type :=
  | Running | Poweroff | Saved | Aborted | NotCreated | Unknown.

Global Instance MachineState_eq_dec : EqDecision MachineState.
Proof. solve_decision. Defined.

Definition stateTable : list (string * MachineState) :=
  [("running", Running); ("poweroff", Poweroff); ("saved", Saved);
   ("aborted", Aborted); ("not_created", NotCreated)].

Fixpoint assoc {V} (k : string) (table : list (string * V)) : option V :=
  match table with
  | [] => None
  | (k', v) :: rest => if decide (k' = k) then Some v else assoc k rest
  end.

(** Modelled from the spec: [ToMachineState], missing from the sources at hand;
    a recognised state string maps to its variant, any other string to the
    fallback. *)
Definition ToMachineState (s : string) : MachineState :=
  default Unknown (assoc s stateTable).

Record MachineStatus : Type := mkMachineStatus {
  Name : string;
  Provider : string;
  State : MachineState
}.

Global Instance MachineStatus_eq_dec : EqDecision MachineStatus.
Proof. solve_decision. Defined.

Record Plugin : Type := mkPlugin {
  PluginName : string;
  PluginVersion : string;
  PluginLocation : string
}.

(** ** The reader of machine-readable output *)

Section Reader.

(** The placeholder for a literal newline, which neither the spec nor the
    sources at hand spell out. *)
Variable newlineToken : string.

Fixpoint dropFinalEmpty (ls : list string) : list string :=
  match ls with
  | [] => []
  | l :: rest =>
      match rest with
      | [] => if decide (l = "") then [] else [l]
      | _ :: _ => l :: dropFinalEmpty rest
      end
  end.

(** Modelled from the spec: the input split on newlines, a final empty line
    skipped. *)
Definition lines (raw : string) : list string :=
  dropFinalEmpty (Str.splitOn Str.newline raw).

(** Modelled from the spec: the timestamp, the target and the type are cut
    off at the first three commas; the data field is all the rest.  A line
    with fewer than three commas has no such fields. *)
Definition isolateFields (line : string) : option (string * string * string * string) :=
  match Str.cut Str.comma line with
  | None => None
  | Some (ts, r1) =>
      match Str.cut Str.comma r1 with
      | None => None
      | Some (tg, r2) =>
          match Str.cut Str.comma r2 with
          | None => None
          | Some (ty, d) => Some (ts, tg, ty, d)
          end
      end
  end.

(** Modelled from the spec: both placeholders reversed, once, by substring
    replacement. *)
Definition unescape (field : string) : string :=
  Str.replaceAll newlineToken (String Str.newline "")
    (Str.replaceAll commaToken (String Str.comma "") field).

(** Modelled from the spec: the data sequence of an isolated data field.  An
    empty data field gives the empty sequence.  Otherwise the placeholders are
    reversed on the isolated field, and the decoded field is then split on
    its commas.  A comma placeholder of the tool so becomes a comma that
    splits, and no element of the sequence spells the placeholder; the
    pattern of [PluginList], which spells it, is for that reason studied on
    parsed records and not through this reader. *)
Definition decodeData (d : string) : list string :=
  if decide (d = "") then [] else Str.splitOn Str.comma (unescape d).

Definition buildEntry (f : string * string * string * string) : error + machineInfoEntry :=
  let '(ts, tg, ty, d) := f in
  match Str.parseInt ts with
  | None => inl (TimestampError ts)
  | Some t => inr (MachineInfoEntry t tg ty (decodeData d))
  end.

Fixpoint isolateAll (ls : list string) : option (list (string * string * string * string)) :=
  match ls with
  | [] => Some []
  | l :: rest =>
      match isolateFields l with
      | None => None
      | Some f => cons f <$> isolateAll rest
      end
  end.

Fixpoint buildAll (fs : list (string * string * string * string)) : error + list machineInfoEntry :=
  match fs with
  | [] => inr []
  | f :: rest =>
      match buildEntry f with
      | inl e => inl e
      | inr r =>
          match buildAll rest with
          | inl e => inl e
          | inr rs => inr (r :: rs)
          end
      end
  end.

(** Modelled from the spec: [parseMachineReadable], missing from the sources
    at hand.  Every line is first split into its fields, and one line with
    fewer than three commas fails the whole parse with
    [MalformedRecordError]; then the records are built in input order, and a
    timestamp that is no integer is an error. *)
Definition parseMachineReadable (raw : string) : list machineInfoEntry * option error :=
  match isolateAll (lines raw) with
  | None => ([], Some MalformedRecordError)
  | Some fs =>
      match buildAll fs with
      | inl e => ([], Some e)
      | inr records => (records, None)
      end
  end.

(** Modelled from the spec: [pluckEntryData], missing from the sources at
    hand; the data of the first record of the type, or [EntryNotFoundError]
    with the type when there is none. *)
Fixpoint pluckEntryData (records : list machineInfoEntry) (ty : string)
  : list string * option error :=
  match records with
  | [] => ([], Some (EntryNotFoundError ty))
  | r :: rest =>
      if decide (mType r = ty) then (data r, None) else pluckEntryData rest ty
  end.




End Reader.

(** ** The plugin pattern *)

Module Regexp.

(** The pieces of an anchored pattern whose repetitions range over one
    character class. *)
Inductive piece : Type :=
  | Chr (c : ascii)
  | Class (p : ascii → bool)
  | Star (p : ascii → bool)
  | Open
  | Close
  | EndOfText.

Definition isLower (c : ascii) : bool :=
  let n := nat_of_ascii c in (97 <=? n) && (n <=? 122).
Definition isUpper (c : ascii) : bool :=
  let n := nat_of_ascii c in (65 <=? n) && (n <=? 90).
Definition isDigit (c : ascii) : bool :=
  let n := nat_of_ascii c in (48 <=? n) && (n <=? 57).

(** [[\w-]]: a letter, a digit, an underscore or a dash. *)
Definition wordOrDash (c : ascii) : bool :=
  isLower c || isUpper c || isDigit c
  || bool_decide (c = "_"%char) || bool_decide (c = "-"%char).

(** [\s]: tab, newline, form feed, carriage return or space. *)
Definition space (c : ascii) : bool :=
  let n := nat_of_ascii c in
  (n =? 9) || (n =? 10) || (n =? 12) || (n =? 13) || (n =? 32).

(** [.]: any character but a newline. *)
Definition dot (c : ascii) : bool := negb (bool_decide (c = Str.newline)).

Fixpoint literal (s : string) : list piece :=
  match s with
  | EmptyString => []
  | String c rest => Chr c :: literal rest
  end.

(** The groups closed so far, the last one first, and the text of the open
    group, both with their characters in reverse. *)
Record captures : Type := Captures {
  closed : list string;
  current : option string
}.

Definition consume (c : ascii) (st : captures) : captures :=
  match current st with
  | Some g => Captures (closed st) (Some (String c g))
  | None => st
  end.

Definition openGroup (st : captures) : captures := Captures (closed st) (Some "").

Definition closeGroup (st : captures) : captures :=
  match current st with
  | Some g => Captures (g :: closed st) None
  | None => st
  end.

(** The match of the pieces at the head of the text: a repetition takes as
    many characters as it can and gives them back one at a time. *)
Fixpoint run (ps : list piece) : string → captures → option captures :=
  match ps with
  | [] => λ _ st, Some st
  | Chr c :: ps' => λ s st,
      match s with
      | String d rest => if decide (d = c) then run ps' rest (consume d st) else None
      | EmptyString => None
      end
  | Class p :: ps' => λ s st,
      match s with
      | String d rest => if p d then run ps' rest (consume d st) else None
      | EmptyString => None
      end
  | Star p :: ps' =>
      fix star (s : string) (st : captures) : option captures :=
        match s with
        | String d rest =>
            if p d then
              match star rest (consume d st) with
              | Some r => Some r
              | None => run ps' s st
              end
            else run ps' s st
        | EmptyString => run ps' s st
        end
  | Open :: ps' => λ s st, run ps' s (openGroup st)
  | Close :: ps' => λ s st, run ps' s (closeGroup st)
  | EndOfText :: ps' => λ s st,
      match s with
      | EmptyString => run ps' s st
      | String _ _ => None
      end
  end.

(** The pattern compiled in [PluginList], piece by piece: the start of the
    text; a group of one or more of [[\w-]]; one [\s]; an opening bracket; a
    group of any number of [.]; the text of the comma placeholder; one [\s];
    a group of one or more of [[a-z]]; a closing bracket; the end of the
    text. *)
Definition pluginMetadataExtractor : list piece :=
  [Open; Class wordOrDash; Star wordOrDash; Close; Class space; Chr "("%char;
   Open; Star dot; Close]
  ++ literal "%!(VAGRANT_COMMA)"
  ++ [Class space; Open; Class isLower; Star isLower; Close; Chr ")"%char;
      EndOfText].

(** [re.FindAllStringSubmatch(s, -1)] for a pattern anchored at both ends:
    the only match there can be is the whole of [s]; its first element is
    the matched text, the others are the groups. *)
Definition FindAllStringSubmatch (re : list piece) (s : string) : list (list string) :=
  match run re s (Captures [] None) with
  | Some st => [s :: reverse (String.rev <$> closed st)]
  | None => []
  end.

End Regexp.

(** ** Running commands *)

(** What the operating system makes of one command: the two output streams
    and how the process ended. *)
Inductive termination : Type :=
  | Exited (code : Z)
  | NotRun (reason : string).

Record process : Type := Process {
  stdout : string;
  stderr : string;
  ended : termination
}.

(** The error of [exec.Cmd.Run]: none when the process exits with code zero,
    an [*exec.ExitError] when it exits with another code, another error when
    it could not be run. *)
Inductive runError : Type :=
  | ExecExitError (code : Z)
  | ExecOtherError (reason : string).

Definition cmdRun (p : process) : option runError :=
  match ended p with
  | Exited code => if decide (code = 0%Z) then None else Some (ExecExitError code)
  | NotRun reason => Some (ExecOtherError reason)
  end.

(** The [command.Runner] interface. *)
Class Runner : Type :=
  Execute : string → list string → outcome (string * option error).

(** [command.ShellRunner], over the operating system [os]. *)
Definition ShellRunner (os : string → list string → process) : Runner :=
  λ cmd args,
    let p := os cmd args in
    match cmdRun p with
    | None => Returns (stdout p, None)
    | Some (ExecExitError code) => Returns (stdout p, Some (ExitError cmd code (stderr p)))
    | Some (ExecOtherError reason) => Panics (PanicMessage ("unexpected error: " +:+ reason))
    end.

(** ** The wrapper *)

Inductive level : Type := InfoLevel | DebugLevel.

(** What an operation leaves behind: the commands handed to the runner and
    the lines handed to the logger, the latest first. *)
Record World : Type := mkWorld {
  calls : list (string * list string);
  logged : list (level * string)
}.

Definition M (A : Type) : Type := World → outcome A * World.

Definition ret {A} (a : A) : M A := λ σ, (Returns a, σ).

Definition bind {A B} (m : M A) (k : A → M B) : M B :=
  λ σ, match m σ with
       | (Returns a, σ') => k a σ'
       | (Panics p, σ') => (Panics p, σ')
       end.

Definition lift {A} (o : outcome A) : M A := λ σ, (o, σ).

Declare Scope wrapper_scope.
Delimit Scope wrapper_scope with W.
Notation "x <- m ;; k" := (bind m (λ x, k))
  (at level 100, m at next level, right associativity) : wrapper_scope.
Notation "m ;;; k" := (bind m (λ _, k))
  (at level 100, right associativity) : wrapper_scope.

Definition logLine (l : level) (msg : string) : M unit :=
  λ σ, (Returns tt, mkWorld (calls σ) ((l, msg) :: logged σ)).

Definition callRunner `{Runner} (cmd : string) (args : list string)
  : M (string * option error) :=
  λ σ, (Execute cmd args, mkWorld ((cmd, args) :: calls σ) (logged σ)).

Definition binary : string := "vagrant".

Record wrapper : Type := mkWrapper {
  executable : string;
  runner : Runner
}.

Definition New (os : string → list string → process) : wrapper :=
  mkWrapper binary (ShellRunner os).

Section Wrapper.

Local Open Scope wrapper_scope.

Variable newlineToken : string.

(** The [State] of a [MachineStatus] no state record has set yet. *)
Variable zeroState : MachineState.

(** [for _, st := range statusMap]: every entry once, in an order the
    language leaves open.  The properties of [Status] take it to be some
    permutation of the statuses of the map. *)
Variable rangeMap : gmap string MachineStatus → list MachineStatus.

Definition exec (w : wrapper) (args : list string) : M (string * option error) :=
  let fullCmd := executable w +:+ " " +:+ Str.join " "%char args in
  logLine InfoLevel ("Running command [" +:+ fullCmd +:+ "]") ;;;
  r <- @callRunner (runner w) (executable w) args ;;
  logLine DebugLevel ("Command output [" +:+ fullCmd +:+ "]: " +:+ r.1) ;;;
  ret r.

Definition info (out : string) : M unit :=
  if decide (0 < String.length out) then logLine InfoLevel out else ret tt.

Definition Up (w : wrapper) : M (option error) :=
  r <- exec w ["up"] ;;
  (if r.2 is None then info r.1 else ret tt) ;;;
  ret r.2.

Definition Halt (w : wrapper) : M (option error) :=
  r <- exec w ["halt"] ;;
  (if r.2 is None then info r.1 else ret tt) ;;;
  ret r.2.

Definition Destroy (w : wrapper) : M (option error) :=
  r <- exec w ["destroy"; "--force"] ;;
  (if r.2 is None then info r.1 else ret tt) ;;;
  ret r.2.

(** One turn of the loop of [Status] over an entry. *)
Definition statusStep (statusMap : gmap string MachineStatus) (entry : machineInfoEntry)
  : outcome (gmap string MachineStatus) :=
  if decide (String.length (target entry) = 0) then Returns statusMap
  else
    let status :=
      match statusMap !! target entry with
      | Some st => st
      | None => mkMachineStatus (target entry) "" zeroState
      end in
    let statusMap :=
      match statusMap !! target entry with
      | Some _ => statusMap
      | None => <[target entry := status]> statusMap
      end in
    if decide (mType entry = "provider-name") then
      obind (index (data entry) 0) (λ d,
        Returns (<[target entry := mkMachineStatus (Name status) d (State status)]> statusMap))
    else if decide (mType entry = "state") then
      obind (index (data entry) 0) (λ d,
        Returns (<[target entry :=
                    mkMachineStatus (Name status) (Provider status) (ToMachineState d)]>
                   statusMap))
    else Returns statusMap.

Definition buildStatusMap (machineInfo : list machineInfoEntry)
  : outcome (gmap string MachineStatus) :=
  foldO statusStep ∅ machineInfo.

Definition Status (w : wrapper) : M (list MachineStatus * option error) :=
  r <- exec w ["status"; "--machine-readable"] ;;
  match r.2 with
  | Some e => ret ([], Some e)
  | None =>
      match parseMachineReadable newlineToken r.1 with
      | (_, Some e) => ret ([], Some e)
      | (machineInfo, None) =>
          statusMap <- lift (buildStatusMap machineInfo) ;;
          ret (rangeMap statusMap, None)
      end
  end.

Definition Version (w : wrapper) : M (string * option error) :=
  r <- exec w ["version"; "--machine-readable"] ;;
  match r.2 with
  | Some e => ret ("", Some e)
  | None =>
      match parseMachineReadable newlineToken r.1 with
      | (_, Some e) => ret ("", Some e)
      | (vInfo, None) =>
          match pluckEntryData vInfo "version-installed" with
          | (_, Some e) => ret ("", Some e)
          | (d, None) => v <- lift (index d 0) ;; ret (v, None)
          end
      end
  end.

Definition SSH (w : wrapper) (command : string) : M (string * option error) :=
  r <- exec w ["ssh"; "--no-tty"; "--command"; command] ;;
  ret (r.1, r.2).

(** One turn of the loop of [PluginList] over an entry. *)
Definition pluginStep (plugins : list Plugin) (entry : machineInfoEntry)
  : outcome (list Plugin) :=
  if decide (mType entry = "ui") then
    obind (index (data entry) 1) (λ d,
    obind (index (Regexp.FindAllStringSubmatch Regexp.pluginMetadataExtractor d) 0) (λ m,
    let matches := drop 1 m in
    obind (index matches 0) (λ name,
    obind (index matches 1) (λ version,
    obind (index matches 2) (λ location,
    Returns (plugins ++ [mkPlugin name version location]))))))
  else Returns plugins.

Definition PluginList (w : wrapper) : M (list Plugin * option error) :=
  r <- exec w ["plugin"; "list"; "--machine-readable"] ;;
  match r.2 with
  | Some e => ret ([], Some e)
  | None =>
      match parseMachineReadable newlineToken r.1 with
      | (_, Some e) => ret ([], Some e)
      | (pluginInfo, None) =>
          plugins <- lift (foldO pluginStep [] pluginInfo) ;;
          ret (plugins, None)
      end
  end.

Definition PluginInstall (w : wrapper) (plugin : Plugin) : M (option error) :=
  if decide (String.length (PluginName plugin) = 0)
  then ret (Some (ErrorString "plugin must have a name"))
  else
    let cmdArgs := ["plugin"; "install"; PluginName plugin] in
    let cmdArgs :=
      if decide (0 < String.length (PluginVersion plugin))
      then cmdArgs ++ ["--plugin-version"; PluginVersion plugin] else cmdArgs in
    let cmdArgs :=
      if decide (PluginLocation plugin = "local")
      then cmdArgs ++ ["--local"] else cmdArgs in
    r <- exec w cmdArgs ;;
    (if r.2 is None then info r.1 else ret tt) ;;;
    ret r.2.

End Wrapper.

(** ** Vocabulary of the properties *)

(** The status the loop of [Status] works on for a target: the one the map
    holds, or a fresh one with the name alone. *)
Definition fetched (zeroState : MachineState) (statusMap : gmap string MachineStatus)
  (tg : string) : MachineStatus :=
  default (mkMachineStatus tg "" zeroState) (statusMap !! tg).

(** The distinct non-empty targets of a record sequence. *)
Definition targets (records : list machineInfoEntry) : gset string :=
  list_to_set (filter (λ tg, tg ≠ "") (target <$> records)).

(** A record the loop of [Status] reads [data[0]] of has a first data
    element. *)
Definition hasFirstData (entry : machineInfoEntry) : Prop :=
  target entry ≠ "" →
  mType entry = "provider-name" ∨ mType entry = "state" →
  data entry ≠ [].

(** Every status of the map is filed under its own name. *)
Definition namedByKey (statusMap : gmap string MachineStatus) : Prop :=
  ∀ k st, statusMap !! k = Some st → Name st = k.

(** The comma placeholder behind its first character. *)
Definition commaTail : string := "!(VAGRANT_COMMA)".




(** Every character of the string is of the class. *)
Fixpoint allChars (p : ascii → bool) (s : string) : bool :=
  match s with
  | EmptyString => true
  | String c rest => p c && allChars p rest
  end.

(** The captures after the characters of a string are consumed one by one. *)
Fixpoint consumeAll (s : string) (st : Regexp.captures) : Regexp.captures :=
  match s with
  | EmptyString => st
  | String c rest => consumeAll rest (Regexp.consume c st)
  end.

(** The pieces of the plugin pattern behind the comma placeholder. *)
Definition locationPieces : list Regexp.piece :=
  [Regexp.Class Regexp.space; Regexp.Open; Regexp.Class Regexp.isLower;
   Regexp.Star Regexp.isLower; Regexp.Close; Regexp.Chr ")"%char; Regexp.EndOfText].

(** A plugin description as the plugin pattern reads it: the name, a blank,
    and in brackets the version, the comma placeholder, a blank and the
    location. *)
Definition describe (plugin : Plugin) (blank1 blank2 : ascii) : string :=
  PluginName plugin
  +:+ String blank1 (String "("%char
        (PluginVersion plugin
         +:+ commaToken
         +:+ String blank2 (PluginLocation plugin +:+ ")"))).

(** The plugins the plugin pattern can read: a name of letters, digits,
    underscores and dashes, a version on one line, a location of small
    letters; name and location not empty. *)
Definition readable (plugin : Plugin) : Prop :=
  PluginName plugin ≠ ""
  ∧ allChars Regexp.wordOrDash (PluginName plugin) = true
  ∧ allChars Regexp.dot (PluginVersion plugin) = true
  ∧ PluginLocation plugin ≠ ""
  ∧ allChars Regexp.isLower (PluginLocation plugin) = true.

(** The first data element of the last record of a type for a target. *)
Definition lastValue (ty tg : string) (records : list machineInfoEntry) : option string :=
  last (filter (λ entry, target entry = tg ∧ mType entry = ty) records)
  ≫= λ entry, head (data entry).

(** The arguments [PluginInstall] builds for a plugin. *)
Definition installArgs (plugin : Plugin) : list string :=
  ["plugin"; "install"; PluginName plugin]
  ++ (if decide (PluginVersion plugin = "") then []
      else ["--plugin-version"; PluginVersion plugin])
  ++ (if decide (PluginLocation plugin = "local") then ["--local"] else []).

(** A step that hands nothing to the runner. *)
Definition quiet {A} (m : M A) : Prop := ∀ σ, calls (m σ).2 = calls σ.

(** The command line the wrapper logs for a list of arguments. *)
Definition commandLine (w : wrapper) (args : list string) : string :=
  executable w +:+ " " +:+ Str.join " "%char args.

(** The lines a command leaves in the log when the runner returns: the
    command line before it runs, its output for debugging, and the output once
    more for information when the command succeeded and wrote any. *)
Definition commandLog (w : wrapper) (args : list string) (out : string)
    (err : option error) : list (level * string) :=
  (if decide (err = None ∧ out ≠ "") then [(InfoLevel, out)] else [])
  ++ [(DebugLevel, "Command output [" +:+ commandLine w args +:+ "]: " +:+ out);
      (InfoLevel, "Running command [" +:+ commandLine w args +:+ "]")].

(** The value an entry carries for a type: its first data element when it is
    of the type. *)
Definition valueOf (ty : string) (entry : machineInfoEntry) : option string :=
  if decide (mType entry = ty) then head (data entry) else None.

(** * Properties *)

(** ** Field isolation and malformed lines *)

Lemma length_zero_iff (s : string) : String.length s = 0 ↔ s = "".
Proof. destruct s; simpl; split; done. Qed.

Lemma cut_None sep s : Str.cut sep s = None ↔ Str.count sep s = 0.
Proof.
  induction s as [|c s IH]; simpl; [done|].
  destruct (decide (c = sep)); [by split|].
  destruct (Str.cut sep s) as [[a b]|]; simpl.
  - split; [done|]. intros H. by apply IH in H.
  - split; [|done]. intros _. by apply IH.
Qed.

Lemma cut_Some sep s a b :
  Str.cut sep s = Some (a, b) → Str.count sep s = S (Str.count sep b).
Proof.
  revert a. induction s as [|c s IH]; intros a; simpl; [done|].
  destruct (decide (c = sep)).
  - intros [= <- <-]. done.
  - destruct (Str.cut sep s) as [[a' b']|] eqn:E; [|done].
    intros [= <- <-]. simpl. by apply (IH a').
Qed.

Lemma isolateFields_None line :
  isolateFields line = None ↔ Str.count Str.comma line < 3.
Proof.
  unfold isolateFields.
  destruct (Str.cut Str.comma line) as [[ts r1]|] eqn:E1.
  2:{ apply cut_None in E1. split; [lia|done]. }
  apply cut_Some in E1.
  destruct (Str.cut Str.comma r1) as [[tg r2]|] eqn:E2.
  2:{ apply cut_None in E2. split; [lia|done]. }
  apply cut_Some in E2.
  destruct (Str.cut Str.comma r2) as [[ty d]|] eqn:E3.
  2:{ apply cut_None in E3. split; [lia|done]. }
  apply cut_Some in E3. split; [done|lia].
Qed.

Lemma isolateAll_None ls :
  isolateAll ls = None ↔ Exists (λ l, Str.count Str.comma l < 3) ls.
Proof.
  induction ls as [|l ls IH]; simpl.
  - split; [done|]. intros H. inversion H.
  - destruct (isolateFields l) as [f|] eqn:E.
    + assert (¬ Str.count Str.comma l < 3) as Hl.
      { intros H. apply isolateFields_None in H. congruence. }
      rewrite Exists_cons. destruct (isolateAll ls); simpl.
      * split; [done|]. intros [H|H]; [done|]. by apply IH in H.
      * split; [|done]. intros _. right. by apply IH.
    + apply isolateFields_None in E. split; [|done]. intros _. by left.
Qed.

(** C5.  An input one of whose lines has fewer than three commas fails as a
    whole with [MalformedRecordError]: no line is skipped and no record is
    handed back. *)
Theorem parseMachineReadable_malformed (newlineToken raw : string) :
  Exists (λ l, Str.count Str.comma l < 3) (lines raw) →
  parseMachineReadable newlineToken raw = ([], Some MalformedRecordError).
Proof.
  intros H. apply isolateAll_None in H.
  unfold parseMachineReadable. by rewrite H.
Qed.

Lemma parseMachineReadable_malformed_witness :
  parseMachineReadable "\n"
    ("1700000000,default,state,running" +:+ String Str.newline "1700000000,default")
  = ([], Some MalformedRecordError).
Proof.
  apply parseMachineReadable_malformed.
  apply Exists_cons_tl, Exists_cons_hd. vm_compute. lia.
Defined.

(** ** Worked examples *)

(** The status stream of two records for one machine. *)
Example Status_example :
  let out :=
    "1700000000,default,state,running" +:+ String Str.newline
    "1700000000,default,provider-name,virtualbox" +:+ String Str.newline "" in
  let w := mkWrapper binary (λ _ _, Returns (out, None)) in
  (Status "\n" Unknown (λ m, (map_to_list m).*2) w (mkWorld [] [])).1
  = Returns ([mkMachineStatus "default" "virtualbox" Running], None).
Proof. vm_compute. reflexivity. Qed.

(** A plugin line as [PluginList] expects it in the second data field. *)
Example pluginStep_example :
  pluginStep []
    (MachineInfoEntry 1700000000 "" "ui"
       ["info"; "vagrant-vbguest (0.24.0%!(VAGRANT_COMMA) global)"])
  = Returns [mkPlugin "vagrant-vbguest" "0.24.0" "global"].
Proof. vm_compute. reflexivity. Qed.

(** The version is a group that may hold the placeholder itself: the
    repetition gives back as little as it must. *)
Example FindAllStringSubmatch_example :
  Regexp.FindAllStringSubmatch Regexp.pluginMetadataExtractor
    "a-b (1.0%!(VAGRANT_COMMA) x%!(VAGRANT_COMMA) local)"
  = [["a-b (1.0%!(VAGRANT_COMMA) x%!(VAGRANT_COMMA) local)"; "a-b";
      "1.0%!(VAGRANT_COMMA) x"; "local"]].
Proof. vm_compute. reflexivity. Qed.

(** A line with three commas and no data has an empty data sequence. *)
Example parseMachineReadable_empty_data :
  parseMachineReadable "\n" "1700000000,default,state,"
  = ([MachineInfoEntry 1700000000 "default" "state" []], None).
Proof. vm_compute. reflexivity. Qed.

(** ** The state mapping *)

Lemma assoc_elem_of {V} (table : list (string * V)) k v :
  NoDup table.*1 → (k, v) ∈ table → assoc k table = Some v.
Proof.
  induction table as [|[k' v'] table IH]; simpl.
  - intros _ H. inversion H.
  - intros Hnd Hin. apply NoDup_cons in Hnd as [Hk' Hnd].
    apply elem_of_cons in Hin as [[= -> ->]|Hin].
    + by rewrite decide_True.
    + rewrite decide_False; [by apply IH|].
      intros ->. apply Hk'. apply list_elem_of_fmap. by exists (k, v).
Qed.

Lemma assoc_not_elem_of {V} (table : list (string * V)) k :
  k ∉ table.*1 → assoc k table = None.
Proof.
  induction table as [|[k' v'] table IH]; simpl; [done|].
  intros Hk. apply not_elem_of_cons in Hk as [Hne Hk].
  rewrite decide_False; [by apply IH|done].
Qed.

Lemma stateTable_NoDup : NoDup stateTable.*1.
Proof. apply (bool_decide_unpack _). by vm_compute. Qed.

(** C6.  The state mapping is total: a recognised state string maps to its
    variant, every other string maps to the fallback, and every string has a
    state, never an error. *)
Theorem ToMachineState_total (s : string) :
  (∀ st, (s, st) ∈ stateTable → ToMachineState s = st)
  ∧ (s ∉ stateTable.*1 → ToMachineState s = Unknown)
  ∧ (∃ st, ToMachineState s = st).
Proof.
  unfold ToMachineState. split; [|split].
  - intros st Hin. by rewrite (assoc_elem_of _ _ _ stateTable_NoDup Hin).
  - intros Hs. by rewrite (assoc_not_elem_of _ _ Hs).
  - by eexists.
Qed.

Lemma ToMachineState_total_witness :
  ToMachineState "not_created" = NotCreated ∧ ToMachineState "gurumeditation" = Unknown.
Proof.
  split.
  - apply (proj1 (ToMachineState_total "not_created")).
    apply (bool_decide_unpack _). vm_compute. exact I.
  - apply (proj1 (proj2 (ToMachineState_total "gurumeditation"))).
    apply (bool_decide_unpack _). vm_compute. exact I.
Defined.

(** ** The wrapper operations and the runner's error *)

Lemma exec_returns w args r σ :
  @Execute (runner w) (executable w) args = Returns r →
  ∃ σ', exec w args σ = (Returns r, σ') ∧ calls σ' = (executable w, args) :: calls σ.
Proof.
  intros H. unfold exec, bind, logLine, callRunner, ret. simpl.
  rewrite H. simpl. by eexists.
Qed.

Lemma info_returns out σ : ∃ σ', info out σ = (Returns tt, σ') ∧ calls σ' = calls σ.
Proof.
  unfold info. destruct (decide _); unfold logLine, ret; by eexists.
Qed.

(** With a name, [PluginInstall] hands one command to the runner. *)
Lemma PluginInstall_named_calls w plugin r σ :
  PluginName plugin ≠ "" →
  (∀ args, @Execute (runner w) (executable w) args = Returns r) →
  ∃ args, calls (PluginInstall w plugin σ).2 = (executable w, args) :: calls σ.
Proof.
  intros Hname Hrun. unfold PluginInstall.
  rewrite decide_False by (by rewrite length_zero_iff).
  unfold bind.
  match goal with |- context [exec w ?a σ] =>
    destruct (exec_returns w a r σ (Hrun a)) as (σ1 & -> & Hcalls); exists a
  end.
  destruct r as [out [e|]]; simpl; [done|].
  destruct (info_returns out σ1) as (σ2 & -> & Hcalls2). simpl.
  rewrite Hcalls2, Hcalls. reflexivity.
Qed.

Lemma installArgs_eq plugin :
  (let cmdArgs := ["plugin"; "install"; PluginName plugin] in
   let cmdArgs :=
     if decide (0 < String.length (PluginVersion plugin))
     then cmdArgs ++ ["--plugin-version"; PluginVersion plugin] else cmdArgs in
   if decide (PluginLocation plugin = "local")
   then cmdArgs ++ ["--local"] else cmdArgs)
  = installArgs plugin.
Proof.
  unfold installArgs. simpl.
  destruct (PluginVersion plugin) as [|c v]; simpl;
    destruct (decide (PluginLocation plugin = "local")); simpl; try done;
    destruct (decide _); simpl; try done; lia.
Qed.

(** C7.  A process that runs and exits with a code other than zero makes
    [Execute] return an [ExitError] with the command name, the code and the
    text of standard error; and the error the runner returns for the command
    of an operation is what the operation returns. *)
Theorem ExitError_propagated :
  (∀ os cmd args code,
      ended (os cmd args) = Exited code → code ≠ 0%Z →
      @Execute (ShellRunner os) cmd args
      = Returns (stdout (os cmd args), Some (ExitError cmd code (stderr (os cmd args)))))
  ∧ (∀ newlineToken zeroState rangeMap w out e σ,
      (@Execute (runner w) (executable w) ["up"] = Returns (out, Some e) →
       (Up w σ).1 = Returns (Some e))
      ∧ (@Execute (runner w) (executable w) ["halt"] = Returns (out, Some e) →
         (Halt w σ).1 = Returns (Some e))
      ∧ (@Execute (runner w) (executable w) ["destroy"; "--force"] = Returns (out, Some e) →
         (Destroy w σ).1 = Returns (Some e))
      ∧ (@Execute (runner w) (executable w) ["status"; "--machine-readable"]
         = Returns (out, Some e) →
         (Status newlineToken zeroState rangeMap w σ).1 = Returns ([], Some e))
      ∧ (@Execute (runner w) (executable w) ["version"; "--machine-readable"]
         = Returns (out, Some e) →
         (Version newlineToken w σ).1 = Returns ("", Some e))
      ∧ (∀ command,
           @Execute (runner w) (executable w) ["ssh"; "--no-tty"; "--command"; command]
           = Returns (out, Some e) →
           (SSH w command σ).1 = Returns (out, Some e))
      ∧ (@Execute (runner w) (executable w) ["plugin"; "list"; "--machine-readable"]
         = Returns (out, Some e) →
         (PluginList newlineToken w σ).1 = Returns ([], Some e))
      ∧ (∀ plugin,
           PluginName plugin ≠ "" →
           @Execute (runner w) (executable w) (installArgs plugin) = Returns (out, Some e) →
           (PluginInstall w plugin σ).1 = Returns (Some e))).
Proof.
  split.
  - intros os cmd args code Hend Hcode.
    unfold Execute, ShellRunner, cmdRun. rewrite Hend.
    by rewrite decide_False.
  - intros newlineToken zeroState rangeMap w out e σ.
    assert (∀ args, @Execute (runner w) (executable w) args = Returns (out, Some e) →
                    ∃ σ', exec w args σ = (Returns (out, Some e), σ')) as Hexec.
    { intros args Hrun. destruct (exec_returns w args _ σ Hrun) as (σ' & H & _).
      by exists σ'. }
    repeat split.
    + intros Hrun. unfold Up, bind. destruct (Hexec _ Hrun) as [σ' ->]. done.
    + intros Hrun. unfold Halt, bind. destruct (Hexec _ Hrun) as [σ' ->]. done.
    + intros Hrun. unfold Destroy, bind. destruct (Hexec _ Hrun) as [σ' ->]. done.
    + intros Hrun. unfold Status, bind. destruct (Hexec _ Hrun) as [σ' ->]. done.
    + intros Hrun. unfold Version, bind. destruct (Hexec _ Hrun) as [σ' ->]. done.
    + intros command Hrun. unfold SSH, bind. destruct (Hexec _ Hrun) as [σ' ->]. done.
    + intros Hrun. unfold PluginList, bind. destruct (Hexec _ Hrun) as [σ' ->]. done.
    + intros plugin Hname Hrun. unfold PluginInstall.
      rewrite decide_False by (by rewrite length_zero_iff).
      cbv zeta. rewrite installArgs_eq.
      unfold bind. destruct (Hexec _ Hrun) as [σ' ->]. done.
Qed.

Lemma ExitError_propagated_witness :
  let os : string → list string → process :=
    λ _ args, match args with
              | ["up"] | ["plugin"; "install"; "vagrant-vbguest"] =>
                  Process "" "no Vagrantfile" (Exited 1)
              | _ => Process "" "" (Exited 0)
              end in
  @Execute (ShellRunner os) "vagrant" ["up"]
  = Returns ("", Some (ExitError "vagrant" 1 "no Vagrantfile"))
  ∧ (Up (New os) (mkWorld [] [])).1 = Returns (Some (ExitError "vagrant" 1 "no Vagrantfile"))
  ∧ (PluginInstall (New os) (mkPlugin "vagrant-vbguest" "" "") (mkWorld [] [])).1
    = Returns (Some (ExitError "vagrant" 1 "no Vagrantfile")).
Proof.
  intros os. split; [|split].
  - apply (proj1 ExitError_propagated os "vagrant" ["up"] 1%Z); [reflexivity|lia].
  - apply (proj1 (proj2 ExitError_propagated "\n" Unknown (λ m, (map_to_list m).*2) (New os) ""
             (ExitError "vagrant" 1 "no Vagrantfile") (mkWorld [] []))).
    reflexivity.
  - apply (proj2 ExitError_propagated "\n" Unknown (λ m, (map_to_list m).*2) (New os) ""
             (ExitError "vagrant" 1 "no Vagrantfile") (mkWorld [] [])).
    + discriminate.
    + reflexivity.
Defined.

(** C9.  [PluginInstall] of a plugin with an empty name returns an error and
    hands no command to the runner: the world is left as it was. *)
Theorem PluginInstall_empty_name (w : wrapper) (plugin : Plugin) (σ : World) :
  PluginName plugin = "" →
  PluginInstall w plugin σ = (Returns (Some (ErrorString "plugin must have a name")), σ)
  ∧ calls (PluginInstall w plugin σ).2 = calls σ.
Proof.
  intros Hname. unfold PluginInstall. rewrite Hname. simpl. done.
Qed.

Lemma PluginInstall_empty_name_witness :
  let w := mkWrapper binary (λ _ _, Returns ("installed", None)) in
  PluginInstall w (mkPlugin "" "1.0.0" "local") (mkWorld [] [])
  = (Returns (Some (ErrorString "plugin must have a name")), mkWorld [] []).
Proof.
  intros w. apply (PluginInstall_empty_name w (mkPlugin "" "1.0.0" "local")). reflexivity.
Defined.

(** ** Looking up one entry *)

Lemma pluckEntryData_match records ty pre r post :
  records = pre ++ r :: post →
  Forall (λ x, mType x ≠ ty) pre →
  mType r = ty →
  pluckEntryData records ty = (data r, None).
Proof.
  intros -> Hpre Hr. induction Hpre as [|x pre Hx _ IH]; simpl.
  - by rewrite decide_True.
  - by rewrite decide_False.
Qed.

Lemma pluckEntryData_error records ty e :
  (pluckEntryData records ty).2 = Some e →
  e = EntryNotFoundError ty ∧ Forall (λ x, mType x ≠ ty) records.
Proof.
  induction records as [|x records IH]; simpl.
  - intros [= <-]. by split.
  - destruct (decide (mType x = ty)); simpl; [done|].
    intros H. destruct (IH H) as [-> Hall]. split; [done|]. by constructor.
Qed.

Lemma pluckEntryData_none records ty :
  Forall (λ x, mType x ≠ ty) records →
  pluckEntryData records ty = ([], Some (EntryNotFoundError ty)).
Proof.
  induction 1 as [|x records Hx _ IH]; simpl; [done|]. by rewrite decide_False.
Qed.

(** C4.  [pluckEntryData] returns the data of the first record, in stream
    order, of the type asked for; it fails, with [EntryNotFoundError] and that
    type, exactly when no record is of the type; and [Version] returns the
    first element of the data found for the type version-installed. *)
Theorem pluckEntryData_first (records : list machineInfoEntry) (ty : string) :
  (∀ pre r post,
      records = pre ++ r :: post → Forall (λ x, mType x ≠ ty) pre → mType r = ty →
      pluckEntryData records ty = (data r, None))
  ∧ (pluckEntryData records ty = ([], Some (EntryNotFoundError ty))
     ↔ Forall (λ x, mType x ≠ ty) records)
  ∧ (∀ e, (pluckEntryData records ty).2 = Some e → e = EntryNotFoundError ty)
  ∧ (∀ newlineToken w out σ,
        @Execute (runner w) (executable w) ["version"; "--machine-readable"]
        = Returns (out, None) →
        parseMachineReadable newlineToken out = (records, None) →
        ty = "version-installed" →
        (∀ v rest, pluckEntryData records ty = (v :: rest, None) →
                   (Version newlineToken w σ).1 = Returns (v, None))
        ∧ (Forall (λ x, mType x ≠ ty) records →
           (Version newlineToken w σ).1 = Returns ("", Some (EntryNotFoundError ty)))).
Proof.
  split; [|split; [|split]].
  - intros pre r post. apply pluckEntryData_match.
  - split.
    + intros H. eapply pluckEntryData_error. rewrite H. done.
    + apply pluckEntryData_none.
  - intros e H. by destruct (pluckEntryData_error _ _ _ H).
  - intros newlineToken w out σ Hrun Hparse ->.
    destruct (exec_returns w _ _ σ Hrun) as (σ' & Hexec & _).
    split.
    + intros v rest Hpluck. unfold Version, bind. rewrite Hexec. simpl.
      rewrite Hparse, Hpluck. done.
    + intros Hnone. unfold Version, bind. rewrite Hexec. simpl.
      rewrite Hparse, (pluckEntryData_none _ _ Hnone). done.
Qed.

Lemma pluckEntryData_first_witness :
  let records :=
    [MachineInfoEntry 1700000000 "" "version-installed" ["2.2.6"];
     MachineInfoEntry 1700000000 "" "version-latest" ["2.2.7"];
     MachineInfoEntry 1700000001 "" "version-installed" ["2.2.5"]] in
  let out :=
    "1700000000,,version-installed,2.2.6" +:+ String Str.newline
    "1700000000,,version-latest,2.2.7" +:+ String Str.newline
    "1700000001,,version-installed,2.2.5" +:+ String Str.newline "" in
  let w := mkWrapper binary (λ _ _, Returns (out, None)) in
  pluckEntryData records "version-latest" = (["2.2.7"], None)
  ∧ pluckEntryData records "state" = ([], Some (EntryNotFoundError "state"))
  ∧ (Version "\n" w (mkWorld [] [])).1 = Returns ("2.2.6", None).
Proof.
  intros records out w. split; [|split].
  - apply (proj1 (pluckEntryData_first records "version-latest")
             [MachineInfoEntry 1700000000 "" "version-installed" ["2.2.6"]]
             (MachineInfoEntry 1700000000 "" "version-latest" ["2.2.7"])
             [MachineInfoEntry 1700000001 "" "version-installed" ["2.2.5"]]).
    + reflexivity.
    + repeat constructor. discriminate.
    + reflexivity.
  - apply (proj1 (proj2 (pluckEntryData_first records "state"))).
    repeat constructor; discriminate.
  - apply (proj2 (proj2 (proj2 (pluckEntryData_first records "version-installed")))
             "\n" w out (mkWorld [] [])) with (rest := []); reflexivity.
Defined.

(** ** The loop of Status *)

Section StatusLoop.

Variable zeroState : MachineState.

Lemma statusStep_no_target m entry :
  target entry = "" → statusStep zeroState m entry = Returns m.
Proof. intros H. unfold statusStep. rewrite H. done. Qed.

(** With a target, the turn stores a status under the target, whatever the
    type of the entry, unless the index is out of range. *)
Lemma statusStep_target m entry :
  target entry ≠ "" →
  let status := fetched zeroState m (target entry) in
  statusStep zeroState m entry =
    if decide (mType entry = "provider-name") then
      obind (index (data entry) 0) (λ d,
        Returns (<[target entry := mkMachineStatus (Name status) d (State status)]> m))
    else if decide (mType entry = "state") then
      obind (index (data entry) 0) (λ d,
        Returns (<[target entry :=
                    mkMachineStatus (Name status) (Provider status) (ToMachineState d)]> m))
    else Returns (<[target entry := status]> m).
Proof.
  intros Htg. unfold statusStep, fetched.
  rewrite decide_False by (by rewrite length_zero_iff).
  destruct (m !! target entry) as [st|] eqn:E; simpl.
  - repeat case_decide; try done.
    by rewrite insert_id.
  - repeat case_decide; destruct (index (data entry) 0); simpl;
      by rewrite ?insert_insert_eq.
Qed.

Lemma statusStep_result m entry m' :
  target entry ≠ "" →
  statusStep zeroState m entry = Returns m' →
  ∃ st, m' = <[target entry := st]> m
        ∧ Name st = Name (fetched zeroState m (target entry)).
Proof.
  intros Htg. rewrite (statusStep_target _ _ Htg). simpl.
  repeat case_decide.
  - destruct (index (data entry) 0); simpl; [|done]. intros [= <-]. by eexists.
  - destruct (index (data entry) 0); simpl; [|done]. intros [= <-]. by eexists.
  - intros [= <-]. by eexists.
Qed.

Lemma statusStep_returns m entry :
  hasFirstData entry → ∃ m', statusStep zeroState m entry = Returns m'.
Proof.
  intros Hsafe. destruct (decide (target entry = "")) as [Htg|Htg].
  - exists m. by apply statusStep_no_target.
  - rewrite (statusStep_target _ _ Htg). simpl. unfold hasFirstData in Hsafe.
    repeat case_decide; try by eexists.
    + destruct (data entry) as [|d rest] eqn:E; [|by eexists].
      exfalso. apply Hsafe; auto.
    + destruct (data entry) as [|d rest] eqn:E; [|by eexists].
      exfalso. apply Hsafe; auto.
Qed.

Lemma fetched_name m tg : namedByKey m → Name (fetched zeroState m tg) = tg.
Proof.
  intros Hm. unfold fetched. destruct (m !! tg) as [st|] eqn:E; simpl; [|done].
  by apply Hm.
Qed.

Lemma targets_cons entry records :
  targets (entry :: records)
  = (if decide (target entry = "") then ∅ else {[target entry]}) ∪ targets records.
Proof.
  unfold targets. rewrite fmap_cons, filter_cons.
  repeat case_decide; try congruence.
  - done.
  - by rewrite (left_id_L ∅ (∪)).
Qed.

Lemma foldO_statusStep records : ∀ m,
  namedByKey m → Forall hasFirstData records →
  ∃ m', foldO (statusStep zeroState) m records = Returns m'
        ∧ namedByKey m' ∧ dom m' = dom m ∪ targets records.
Proof.
  induction records as [|entry records IH]; intros m Hm Hsafe; simpl.
  - exists m. split; [done|]. split; [done|].
    unfold targets. simpl. by rewrite (right_id_L ∅ (∪)).
  - apply Forall_cons in Hsafe as [Hentry Hsafe].
    destruct (statusStep_returns m entry Hentry) as [m1 Hstep].
    rewrite Hstep. simpl. rewrite targets_cons.
    destruct (decide (target entry = "")) as [Htg|Htg].
    + rewrite (statusStep_no_target _ _ Htg) in Hstep. injection Hstep as <-.
      rewrite (left_id_L ∅ (∪)). by apply IH.
    + destruct (statusStep_result _ _ _ Htg Hstep) as (st & -> & Hname).
      rewrite (fetched_name _ _ Hm) in Hname.
      destruct (IH (<[target entry := st]> m)) as (m' & Hfold & Hm' & Hdom); [|done|].
      { intros k st' Hk. apply lookup_insert_Some in Hk as [[<- <-]|[_ Hk]]; [done|].
        by apply Hm. }
      exists m'. split; [done|]. split; [done|].
      rewrite Hdom, dom_insert_L.
      rewrite (comm_L (∪) {[target entry]} (dom m)). by rewrite (assoc_L (∪)).
Qed.

End StatusLoop.

(** C3.  For an entry with a target, one turn of the loop of [Status] works
    on the status fetched or created for the target: the type provider-name
    sets its provider to the first data element, the type state sets its state
    to the mapped first data element, and any other type changes no field of
    it (and leaves a map that has the target as it was). *)
Theorem statusStep_populates (zeroState : MachineState)
    (m : gmap string MachineStatus) (entry : machineInfoEntry) :
  target entry ≠ "" →
  let status := fetched zeroState m (target entry) in
  (∀ d rest, mType entry = "provider-name" → data entry = d :: rest →
     statusStep zeroState m entry
     = Returns (<[target entry := mkMachineStatus (Name status) d (State status)]> m))
  ∧ (∀ d rest, mType entry = "state" → data entry = d :: rest →
     statusStep zeroState m entry
     = Returns (<[target entry :=
                   mkMachineStatus (Name status) (Provider status) (ToMachineState d)]> m))
  ∧ (mType entry ≠ "provider-name" → mType entry ≠ "state" →
     statusStep zeroState m entry = Returns (<[target entry := status]> m)
     ∧ (is_Some (m !! target entry) → statusStep zeroState m entry = Returns m)).
Proof.
  intros Htg status. rewrite (statusStep_target _ _ _ Htg). simpl.
  fold status. split; [|split].
  - intros d rest Hty Hdata. rewrite decide_True by done.
    unfold index. rewrite Hdata. done.
  - intros d rest Hty Hdata.
    rewrite decide_False by (rewrite Hty; discriminate).
    rewrite decide_True by done.
    unfold index. rewrite Hdata. done.
  - intros Hp Hs. rewrite !decide_False by done. split; [done|].
    intros [st Hst]. subst status. unfold fetched. rewrite Hst. simpl.
    by rewrite insert_id.
Qed.

Lemma statusStep_populates_witness :
  let m : gmap string MachineStatus := {["default" := mkMachineStatus "default" "" Unknown]} in
  statusStep Unknown m (MachineInfoEntry 1700000000 "default" "provider-name" ["virtualbox"])
  = Returns (<["default" := mkMachineStatus "default" "virtualbox" Unknown]> m)
  ∧ statusStep Unknown m (MachineInfoEntry 1700000000 "default" "state" ["running"])
    = Returns (<["default" := mkMachineStatus "default" "" Running]> m)
  ∧ statusStep Unknown m (MachineInfoEntry 1700000000 "default" "state-human-short" ["running"])
    = Returns m.
Proof.
  intros m. split; [|split].
  - apply (proj1 (statusStep_populates Unknown m
             (MachineInfoEntry 1700000000 "default" "provider-name" ["virtualbox"])
             ltac:(discriminate)) "virtualbox" []); reflexivity.
  - apply (proj1 (proj2 (statusStep_populates Unknown m
             (MachineInfoEntry 1700000000 "default" "state" ["running"])
             ltac:(discriminate))) "running" []); reflexivity.
  - apply (proj2 (proj2 (statusStep_populates Unknown m
             (MachineInfoEntry 1700000000 "default" "state-human-short" ["running"])
             ltac:(discriminate)))); [discriminate|discriminate|].
    exists (mkMachineStatus "default" "" Unknown). reflexivity.
Defined.

(** C10.  When every entry with a target and the type provider-name or state
    has a data element, every [data[0]] the loop of [Status] reads is there and
    the loop ends without a panic. *)
Theorem buildStatusMap_in_bounds (zeroState : MachineState)
    (records : list machineInfoEntry) :
  Forall hasFirstData records →
  (∀ entry, entry ∈ records → target entry ≠ "" →
            mType entry = "provider-name" ∨ mType entry = "state" →
            ∃ d, index (data entry) 0 = Returns d)
  ∧ ∃ m, buildStatusMap zeroState records = Returns m.
Proof.
  intros Hsafe. split.
  - intros entry Hin Htg Hty.
    rewrite Forall_forall in Hsafe. specialize (Hsafe entry Hin Htg Hty).
    destruct (data entry) as [|d rest]; [done|]. by exists d.
  - destruct (foldO_statusStep zeroState records ∅) as (m & Hm & _); [|done|].
    + intros k st Hk. by rewrite lookup_empty in Hk.
    + by exists m.
Qed.

Lemma buildStatusMap_in_bounds_witness :
  ∃ m, buildStatusMap Unknown
         [MachineInfoEntry 1700000000 "default" "state" ["running"];
          MachineInfoEntry 1700000000 "" "ui" [];
          MachineInfoEntry 1700000000 "default" "metadata" []] = Returns m.
Proof.
  apply (buildStatusMap_in_bounds Unknown).
  repeat constructor; intros Htg Hty; try done.
  destruct Hty; discriminate.
Defined.

Lemma fmap_snd_fst {A B} (f : B → A) (l : list (A * B)) :
  Forall (λ p, f p.2 = p.1) l → f <$> l.*2 = l.*1.
Proof. induction 1 as [|[a b] l H _ IH]; csimpl in *; [done|]. by f_equal. Qed.

Lemma map_to_list_names (m : gmap string MachineStatus) :
  namedByKey m → Name <$> (map_to_list m).*2 = (map_to_list m).*1.
Proof.
  intros Hm. apply fmap_snd_fst. apply Forall_forall. intros [k st] Hin.
  apply elem_of_map_to_list in Hin. simpl. by apply Hm.
Qed.

(** C2, as the code has it.  When every entry that [Status] reads [data[0]]
    of has a data element, [Status] returns one status for each distinct
    non-empty target of the parsed records and no other: as many statuses as
    there are such targets, with names that differ and are those targets.  An
    entry without a target adds none. *)
Theorem Status_entries (newlineToken : string) (zeroState : MachineState)
    (rangeMap : gmap string MachineStatus → list MachineStatus)
    (w : wrapper) (out : string) (records : list machineInfoEntry) (σ : World) :
  (∀ m, rangeMap m ≡ₚ (map_to_list m).*2) →
  @Execute (runner w) (executable w) ["status"; "--machine-readable"] = Returns (out, None) →
  parseMachineReadable newlineToken out = (records, None) →
  Forall hasFirstData records →
  ∃ statuses,
    (Status newlineToken zeroState rangeMap w σ).1 = Returns (statuses, None)
    ∧ length statuses = size (targets records)
    ∧ NoDup (Name <$> statuses)
    ∧ ∀ name, name ∈ Name <$> statuses ↔ name ∈ targets records.
Proof.
  intros Hrange Hrun Hparse Hsafe.
  destruct (exec_returns w _ _ σ Hrun) as (σ' & Hexec & _).
  destruct (foldO_statusStep zeroState records ∅) as (m & Hfold & Hm & Hdom); [|done|].
  { intros k st Hk. by rewrite lookup_empty in Hk. }
  rewrite dom_empty_L, (left_id_L ∅ (∪)) in Hdom.
  exists (rangeMap m). split; [|split; [|split]].
  - unfold Status, bind. rewrite Hexec. simpl. rewrite Hparse.
    unfold lift, buildStatusMap. rewrite Hfold. done.
  - rewrite (Permutation_length (Hrange m)), length_fmap, length_map_to_list.
    by rewrite <- Hdom, size_dom.
  - rewrite (Hrange m), (map_to_list_names _ Hm). apply NoDup_fst_map_to_list.
  - intros name. rewrite (Hrange m), (map_to_list_names _ Hm), <- Hdom.
    rewrite elem_of_dom. split.
    + intros Hin. apply list_elem_of_fmap in Hin as ([k st] & -> & Hin).
      apply elem_of_map_to_list in Hin. by exists st.
    + intros [st Hst]. apply list_elem_of_fmap. exists (name, st). split; [done|].
      by apply elem_of_map_to_list.
Qed.

Lemma Status_entries_witness :
  let out :=
    "1700000000,default,state,running" +:+ String Str.newline
    "1700000000,default,provider-name,virtualbox" +:+ String Str.newline
    "1700000000,,ui,info" +:+ String Str.newline
    "1700000001,db,metadata,provider" +:+ String Str.newline "" in
  let records :=
    [MachineInfoEntry 1700000000 "default" "state" ["running"];
     MachineInfoEntry 1700000000 "default" "provider-name" ["virtualbox"];
     MachineInfoEntry 1700000000 "" "ui" ["info"];
     MachineInfoEntry 1700000001 "db" "metadata" ["provider"]] in
  let w := mkWrapper binary (λ _ _, Returns (out, None)) in
  ∃ statuses,
    (Status "\n" Unknown (λ m, (map_to_list m).*2) w (mkWorld [] [])).1
    = Returns (statuses, None)
    ∧ length statuses = size (targets records)
    ∧ NoDup (Name <$> statuses)
    ∧ ∀ name, name ∈ Name <$> statuses ↔ name ∈ targets records.
Proof.
  intros out records w.
  apply (Status_entries "\n" Unknown (λ m, (map_to_list m).*2) w out records).
  - intros m. reflexivity.
  - reflexivity.
  - vm_compute. reflexivity.
  - repeat constructor; intros Htg Hty; try done; destruct Hty; discriminate.
Defined.

(** C2, as it is worded, fails: a state record without data has a target, and
    [Status] panics on it instead of returning one status. *)
Lemma Status_entries_counterexample :
  let out := "1700000000,default,state," in
  let records := [MachineInfoEntry 1700000000 "default" "state" []] in
  let w := mkWrapper binary (λ _ _, Returns (out, None)) in
  parseMachineReadable "\n" out = (records, None)
  ∧ size (targets records) = 1
  ∧ (Status "\n" Unknown (λ m, (map_to_list m).*2) w (mkWorld [] [])).1
    = Panics (IndexOutOfRange 0 0)
  ∧ ¬ ∃ statuses,
        (Status "\n" Unknown (λ m, (map_to_list m).*2) w (mkWorld [] [])).1
        = Returns (statuses, None).
Proof.
  intros out records w.
  assert ((Status "\n" Unknown (λ m, (map_to_list m).*2) w (mkWorld [] [])).1
          = Panics (IndexOutOfRange 0 0)) as Hpanic by (vm_compute; reflexivity).
  split; [vm_compute; reflexivity|]. split; [vm_compute; reflexivity|].
  split; [exact Hpanic|]. intros [statuses H]. rewrite Hpanic in H. discriminate.
Qed.

(** ** The loop of PluginList *)

Lemma pluginStep_unmatched plugins entry :
  mType entry = "ui" →
  (∀ d, data entry !! 1 = Some d →
        Regexp.FindAllStringSubmatch Regexp.pluginMetadataExtractor d = []) →
  ∃ p, pluginStep plugins entry = Panics p.
Proof.
  intros Hty Hno. unfold pluginStep. rewrite decide_True by done.
  unfold index at 1. destruct (data entry !! 1) as [d|] eqn:E; simpl.
  - rewrite (Hno d eq_refl). by eexists.
  - by eexists.
Qed.

Lemma foldO_pluginStep_unmatched records : ∀ plugins,
  Exists (λ entry, mType entry = "ui"
                   ∧ ∀ d, data entry !! 1 = Some d →
                          Regexp.FindAllStringSubmatch Regexp.pluginMetadataExtractor d = [])
         records →
  ∃ p, foldO pluginStep plugins records = Panics p.
Proof.
  induction records as [|entry records IH]; intros plugins Hex; simpl.
  - inversion Hex.
  - destruct (pluginStep plugins entry) as [plugins'|p] eqn:Hstep; simpl.
    + apply Exists_cons in Hex as [[Hty Hno]|Hex].
      * destruct (pluginStep_unmatched plugins entry Hty Hno) as [p Hp]. congruence.
      * by apply IH.
    + by eexists.
Qed.

(** C1, on the code.  With a record of type ui whose second data field does
    not match the plugin pattern, or is missing, [PluginList] panics: the
    record is not left out, and no plugin of the other lines is returned. *)
Theorem PluginList_unmatched_panics (newlineToken : string) (w : wrapper)
    (out : string) (records : list machineInfoEntry) (σ : World) :
  @Execute (runner w) (executable w) ["plugin"; "list"; "--machine-readable"]
  = Returns (out, None) →
  parseMachineReadable newlineToken out = (records, None) →
  Exists (λ entry, mType entry = "ui"
                   ∧ ∀ d, data entry !! 1 = Some d →
                          Regexp.FindAllStringSubmatch Regexp.pluginMetadataExtractor d = [])
         records →
  ∃ p, (PluginList newlineToken w σ).1 = Panics p.
Proof.
  intros Hrun Hparse Hex.
  destruct (exec_returns w _ _ σ Hrun) as (σ' & Hexec & _).
  destruct (foldO_pluginStep_unmatched records [] Hex) as [p Hp].
  exists p. unfold PluginList, bind. rewrite Hexec. simpl. rewrite Hparse.
  unfold lift. rewrite Hp. done.
Qed.

Lemma PluginList_unmatched_panics_witness :
  let out :=
    "1700000000,,plugin-name,vagrant-vbguest" +:+ String Str.newline
    "1700000000,,ui,info,No plugins installed." +:+ String Str.newline "" in
  let w := mkWrapper binary (λ _ _, Returns (out, None)) in
  ∃ p, (PluginList "\n" w (mkWorld [] [])).1 = Panics p.
Proof.
  intros out w.
  apply (PluginList_unmatched_panics "\n" w out
           [MachineInfoEntry 1700000000 "" "plugin-name" ["vagrant-vbguest"];
            MachineInfoEntry 1700000000 "" "ui" ["info"; "No plugins installed."]]).
  - reflexivity.
  - vm_compute. reflexivity.
  - apply Exists_cons_tl, Exists_cons_hd. split; [reflexivity|].
    intros d [= <-]. vm_compute. reflexivity.
Defined.

(** ** Escaping and its reversal *)

Lemma app_cons c a b : String c a +:+ b = String c (a +:+ b).
Proof. reflexivity. Qed.

Lemma app_nil_l b : "" +:+ b = b.
Proof. reflexivity. Qed.

Lemma mem_app c a b : Str.mem c (a +:+ b) = Str.mem c a || Str.mem c b.
Proof.
  induction a as [|d a IH]; [done|]. rewrite app_cons. simpl.
  by destruct (decide (d = c)).
Qed.







Lemma commaToken_eq : commaToken = String "%"%char commaTail.
Proof. reflexivity. Qed.






Section Unescape.

(** The newline placeholder, first character and rest. *)
Variables (hN : ascii) (tN : string).
Local Abbreviation tok := (String hN tN).

Hypothesis first_not_later : Str.mem hN tN = false.
Hypothesis no_percent : Str.mem "%"%char tok = false.
Hypothesis first_not_in_comma : Str.mem hN commaToken = false.
Hypothesis no_comma : Str.mem Str.comma tok = false.









End Unescape.








(** * Further properties *)

(** ** The matcher of the plugin pattern *)

Lemma append_nil_r (s : string) : s +:+ "" = s.
Proof. induction s as [|c s IH]; [done|]. by rewrite app_cons, IH. Qed.

Lemma rev_app_rev_app (a b c : string) :
  String.rev_app (String.rev_app a b) c = String.rev_app b (a +:+ c).
Proof.
  revert b. induction a as [|x a IH]; intros b; [done|].
  simpl. rewrite IH. by rewrite app_cons.
Qed.

Lemma rev_rev_app (a b : string) : String.rev (String.rev_app a b) = String.rev_app b a.
Proof. unfold String.rev. by rewrite rev_app_rev_app, append_nil_r. Qed.

Lemma allChars_app p a b : allChars p (a +:+ b) = allChars p a && allChars p b.
Proof.
  induction a as [|c a IH]; [done|]. rewrite app_cons. simpl.
  by rewrite IH, andb_assoc.
Qed.

Lemma allChars_not_mem p x s :
  p x = false → allChars p s = true → Str.mem x s = false.
Proof.
  intros Hx. induction s as [|c s IH]; [done|]. simpl.
  intros H. apply andb_true_iff in H as [Hc Hs].
  destruct (decide (c = x)) as [->|]; [congruence|]. by apply IH.
Qed.

Lemma consumeAll_open s cl g :
  consumeAll s (Regexp.Captures cl (Some g)) = Regexp.Captures cl (Some (String.rev_app s g)).
Proof. revert g. induction s as [|c s IH]; intros g; [done|]. simpl. apply IH. Qed.

Lemma consumeAll_closed s cl :
  consumeAll s (Regexp.Captures cl None) = Regexp.Captures cl None.
Proof. induction s as [|c s IH]; [done|]. simpl. apply IH. Qed.

Lemma consumeAll_app a b st : consumeAll (a +:+ b) st = consumeAll b (consumeAll a st).
Proof. revert st. induction a as [|c a IH]; intros st; [done|]. rewrite app_cons. simpl. apply IH. Qed.

Lemma run_Star p ps s st :
  Regexp.run (Regexp.Star p :: ps) s st =
  match s with
  | String d rest =>
      if p d then
        match Regexp.run (Regexp.Star p :: ps) rest (Regexp.consume d st) with
        | Some r => Some r
        | None => Regexp.run ps s st
        end
      else Regexp.run ps s st
  | EmptyString => Regexp.run ps s st
  end.
Proof. by destruct s. Qed.

Lemma run_Class_inv p ps s st r :
  Regexp.run (Regexp.Class p :: ps) s st = Some r →
  ∃ c rest, s = String c rest ∧ p c = true ∧ Regexp.run ps rest (Regexp.consume c st) = Some r.
Proof.
  destruct s as [|c rest]; simpl; [done|].
  destruct (p c) eqn:E; [|done]. intros H. by exists c, rest.
Qed.

Lemma run_Chr_inv c ps s st r :
  Regexp.run (Regexp.Chr c :: ps) s st = Some r →
  ∃ rest, s = String c rest ∧ Regexp.run ps rest (Regexp.consume c st) = Some r.
Proof.
  destruct s as [|d rest]; simpl; [done|].
  destruct (decide (d = c)) as [->|]; [|done]. intros H. by exists rest.
Qed.

Lemma run_literal t ps rest st :
  Regexp.run (Regexp.literal t ++ ps) (t +:+ rest) st = Regexp.run ps rest (consumeAll t st).
Proof.
  revert st. induction t as [|c t IH]; intros st; [done|].
  rewrite app_cons. simpl. rewrite decide_True by done. apply IH.
Qed.

Lemma run_literal_inv t ps s st r :
  Regexp.run (Regexp.literal t ++ ps) s st = Some r →
  ∃ rest, s = t +:+ rest ∧ Regexp.run ps rest (consumeAll t st) = Some r.
Proof.
  revert s st. induction t as [|c t IH]; intros s st; simpl.
  - intros H. by exists s.
  - intros H. apply run_Chr_inv in H as (s' & -> & H).
    apply IH in H as (rest & -> & H). by exists rest.
Qed.

(** What a repetition has taken when the match succeeds. *)
Lemma run_Star_inv p ps s : ∀ st r,
  Regexp.run (Regexp.Star p :: ps) s st = Some r →
  ∃ pre rest, s = pre +:+ rest ∧ allChars p pre = true
              ∧ Regexp.run ps rest (consumeAll pre st) = Some r.
Proof.
  induction s as [|d s IH]; intros st r; rewrite run_Star.
  - intros H. by exists "", "".
  - destruct (p d) eqn:E.
    + destruct (Regexp.run (Regexp.Star p :: ps) s (Regexp.consume d st)) as [r'|] eqn:E'.
      * intros [= <-]. apply IH in E' as (pre & rest & -> & Hpre & Hrun).
        exists (String d pre), rest. simpl. by rewrite E.
      * intros H. by exists "", (String d s).
    + intros H. by exists "", (String d s).
Qed.

(** A repetition fails when the rest of the pattern fails behind everything
    it can take. *)
Lemma run_Star_none p ps s : ∀ st,
  (∀ pre rest, s = pre +:+ rest → allChars p pre = true →
               Regexp.run ps rest (consumeAll pre st) = None) →
  Regexp.run (Regexp.Star p :: ps) s st = None.
Proof.
  induction s as [|d s IH]; intros st Hnone; rewrite run_Star.
  - by apply (Hnone "" "").
  - assert (Regexp.run ps (String d s) st = None) as H0 by (by apply (Hnone "" (String d s))).
    destruct (p d) eqn:E; [|done].
    rewrite IH; [done|]. intros pre rest -> Hpre.
    apply (Hnone (String d pre) rest); [done|]. simpl. by rewrite E.
Qed.

(** A repetition takes the longest stretch behind which the rest of the
    pattern succeeds. *)
Lemma run_Star_longest p ps pre : ∀ rest st r,
  allChars p pre = true →
  Regexp.run ps rest (consumeAll pre st) = Some r →
  (∀ more rest', more ≠ "" → rest = more +:+ rest' → allChars p more = true →
                 Regexp.run ps rest' (consumeAll more (consumeAll pre st)) = None) →
  Regexp.run (Regexp.Star p :: ps) (pre +:+ rest) st = Some r.
Proof.
  induction pre as [|c pre IH]; intros rest st r Hpre Hrun Hlonger.
  - rewrite app_nil_l, run_Star. simpl in Hrun, Hlonger.
    destruct rest as [|d rest]; [done|].
    destruct (p d) eqn:E; [|done].
    rewrite run_Star_none; [done|].
    intros more rest' -> Hmore.
    apply (Hlonger (String d more) rest'); [done|done|]. simpl. by rewrite E.
  - simpl in Hpre. apply andb_true_iff in Hpre as [Hc Hpre].
    rewrite app_cons, run_Star, Hc. simpl in Hrun, Hlonger.
    by rewrite (IH rest (Regexp.consume c st) r).
Qed.

Lemma pluginMetadataExtractor_eq :
  Regexp.pluginMetadataExtractor
  = Regexp.Open :: Regexp.Class Regexp.wordOrDash :: Regexp.Star Regexp.wordOrDash
    :: Regexp.Close :: Regexp.Class Regexp.space :: Regexp.Chr "("%char
    :: Regexp.Open :: Regexp.Star Regexp.dot :: Regexp.Close
    :: (Regexp.literal commaToken ++ locationPieces).
Proof. reflexivity. Qed.

Lemma run_Open ps s st :
  Regexp.run (Regexp.Open :: ps) s st = Regexp.run ps s (Regexp.openGroup st).
Proof. reflexivity. Qed.

Lemma run_Close ps s st :
  Regexp.run (Regexp.Close :: ps) s st = Regexp.run ps s (Regexp.closeGroup st).
Proof. reflexivity. Qed.

Lemma run_Class p ps c rest st :
  p c = true →
  Regexp.run (Regexp.Class p :: ps) (String c rest) st
  = Regexp.run ps rest (Regexp.consume c st).
Proof. intros H. simpl. by rewrite H. Qed.

Lemma run_Chr c ps rest st :
  Regexp.run (Regexp.Chr c :: ps) (String c rest) st
  = Regexp.run ps rest (Regexp.consume c st).
Proof. simpl. by rewrite decide_True. Qed.

Lemma run_EndOfText_inv s st r :
  Regexp.run [Regexp.EndOfText] s st = Some r → s = "" ∧ r = st.
Proof. destruct s; simpl; [|done]. by intros [= <-]. Qed.

Ltac captures_in H :=
  unfold Regexp.consume, Regexp.openGroup, Regexp.closeGroup in H;
  cbn [Regexp.current Regexp.closed] in H.

(** The captures of a match of the plugin pattern, read off piece by piece. *)
Lemma run_pluginMetadataExtractor_inv s st :
  Regexp.run Regexp.pluginMetadataExtractor s (Regexp.Captures [] None) = Some st →
  ∃ c name blank1 version blank2 l location,
    s = String c name
        +:+ String blank1 (String "("%char
              (version +:+ commaToken +:+ String blank2 (String l location +:+ ")")))
    ∧ Regexp.wordOrDash c = true ∧ allChars Regexp.wordOrDash name = true
    ∧ Regexp.space blank1 = true
    ∧ allChars Regexp.dot version = true
    ∧ Regexp.space blank2 = true
    ∧ Regexp.isLower l = true ∧ allChars Regexp.isLower location = true
    ∧ Regexp.closed st
      = [String.rev_app location (String l "");
         String.rev_app version "";
         String.rev_app name (String c "")].
Proof.
  rewrite pluginMetadataExtractor_eq, run_Open. intros H.
  apply run_Class_inv in H as (c & s1 & -> & Hc & H).
  apply run_Star_inv in H as (name & s2 & -> & Hname & H).
  captures_in H. rewrite consumeAll_open, run_Close in H. captures_in H.
  apply run_Class_inv in H as (blank1 & s3 & -> & Hb1 & H).
  apply run_Chr_inv in H as (s4 & -> & H).
  captures_in H. rewrite run_Open in H. captures_in H.
  apply run_Star_inv in H as (version & s5 & -> & Hversion & H).
  rewrite consumeAll_open, run_Close in H. captures_in H.
  apply run_literal_inv in H as (s6 & -> & H).
  rewrite consumeAll_closed in H. unfold locationPieces in H.
  apply run_Class_inv in H as (blank2 & s7 & -> & Hb2 & H).
  captures_in H. rewrite run_Open in H. captures_in H.
  apply run_Class_inv in H as (l & s8 & -> & Hl & H).
  apply run_Star_inv in H as (location & s9 & -> & Hlocation & H).
  captures_in H. rewrite consumeAll_open, run_Close in H. captures_in H.
  apply run_Chr_inv in H as (s10 & -> & H). captures_in H.
  apply run_EndOfText_inv in H as [-> ->].
  exists c, name, blank1, version, blank2, l, location.
  repeat split; done.
Qed.

Lemma space_not_wordOrDash c : Regexp.space c = true → Regexp.wordOrDash c = false.
Proof. destruct c as [[] [] [] [] [] [] [] []]; by vm_compute. Qed.

Lemma space_not_percent c : Regexp.space c = true → c ≠ "%"%char.
Proof. intros H ->. by vm_compute in H. Qed.

Lemma isLower_not_percent c : Regexp.isLower c = true → c ≠ "%"%char.
Proof. intros H ->. by vm_compute in H. Qed.

Lemma run_commaToken_none ps s st :
  Str.mem "%"%char s = false →
  Regexp.run (Regexp.Close :: Regexp.literal commaToken ++ ps) s st = None.
Proof.
  intros H. rewrite run_Close. destruct s as [|d s]; [done|].
  simpl in H. destruct (decide (d = "%"%char)) as [|Hd]; [done|].
  rewrite commaToken_eq. simpl. by rewrite decide_False.
Qed.

(** The plugin pattern on a description: the groups are the name, the version
    and the location. *)
Lemma run_pluginMetadataExtractor_describe c name blank1 version blank2 l location :
  Regexp.wordOrDash c = true → allChars Regexp.wordOrDash name = true →
  Regexp.space blank1 = true →
  allChars Regexp.dot version = true →
  Regexp.space blank2 = true →
  Regexp.isLower l = true → allChars Regexp.isLower location = true →
  Regexp.run Regexp.pluginMetadataExtractor
    (String c name
     +:+ String blank1 (String "("%char
           (version +:+ commaToken +:+ String blank2 (String l location +:+ ")"))))
    (Regexp.Captures [] None)
  = Some (Regexp.Captures
            [String.rev_app location (String l "");
             String.rev_app version "";
             String.rev_app name (String c "")] None).
Proof.
  intros Hc Hname Hb1 Hversion Hb2 Hl Hlocation.
  rewrite pluginMetadataExtractor_eq, run_Open, app_cons, (run_Class _ _ _ _ _ Hc).
  apply run_Star_longest; [done| |].
  2:{ intros more rest' Hmore E Hall. destruct more as [|a more]; [done|].
      rewrite app_cons in E. injection E as <- _. simpl in Hall.
      by rewrite (space_not_wordOrDash _ Hb1) in Hall. }
  unfold Regexp.consume, Regexp.openGroup. cbn [Regexp.current Regexp.closed].
  rewrite consumeAll_open, run_Close.
  unfold Regexp.closeGroup. cbn [Regexp.current Regexp.closed].
  rewrite (run_Class _ _ _ _ _ Hb1), run_Chr, run_Open.
  unfold Regexp.consume, Regexp.openGroup. cbn [Regexp.current Regexp.closed].
  apply run_Star_longest; [done| |].
  2:{ intros more rest' Hmore E Hall. destruct more as [|a more]; [done|].
      apply run_commaToken_none.
      rewrite commaToken_eq, !app_cons in E. injection E as _ E.
      assert (Str.mem "%"%char (more +:+ rest') = false) as Hmem.
      { rewrite <- E, mem_app. simpl.
        rewrite (decide_False (P := blank2 = "%"%char)) by (by apply space_not_percent).
        rewrite (decide_False (P := l = "%"%char)) by (by apply isLower_not_percent).
        rewrite mem_app, (allChars_not_mem Regexp.isLower) by done. done. }
      rewrite mem_app in Hmem. by apply orb_false_elim in Hmem as [_ ?]. }
  rewrite consumeAll_open, run_Close.
  unfold Regexp.closeGroup. cbn [Regexp.current Regexp.closed].
  rewrite run_literal, consumeAll_closed. unfold locationPieces.
  rewrite (run_Class _ _ _ _ _ Hb2), run_Open, app_cons, (run_Class _ _ _ _ _ Hl).
  apply run_Star_longest; [done| |].
  2:{ intros more rest' Hmore E Hall. destruct more as [|a more]; [done|].
      rewrite app_cons in E. injection E as <- _. by simpl in Hall. }
  unfold Regexp.consume, Regexp.openGroup. cbn [Regexp.current Regexp.closed].
  rewrite consumeAll_open, run_Close.
  unfold Regexp.closeGroup. cbn [Regexp.current Regexp.closed].
  rewrite run_Chr. reflexivity.
Qed.

Lemma allChars_cons_inv p s :
  s ≠ "" → allChars p s = true →
  ∃ c rest, s = String c rest ∧ p c = true ∧ allChars p rest = true.
Proof.
  destruct s as [|c rest]; [done|]. simpl. intros _ H.
  apply andb_true_iff in H as [Hc Hrest]. by exists c, rest.
Qed.

Lemma FindAllStringSubmatch_parts c name blank1 version blank2 l location :
  Regexp.wordOrDash c = true → allChars Regexp.wordOrDash name = true →
  Regexp.space blank1 = true →
  allChars Regexp.dot version = true →
  Regexp.space blank2 = true →
  Regexp.isLower l = true → allChars Regexp.isLower location = true →
  Regexp.FindAllStringSubmatch Regexp.pluginMetadataExtractor
    (describe (mkPlugin (String c name) version (String l location)) blank1 blank2)
  = [[describe (mkPlugin (String c name) version (String l location)) blank1 blank2;
      String c name; version; String l location]].
Proof.
  intros Hc Hname Hb1 Hversion Hb2 Hl Hlocation.
  unfold Regexp.FindAllStringSubmatch, describe. cbn [PluginName PluginVersion PluginLocation].
  rewrite run_pluginMetadataExtractor_describe by done.
  cbn [Regexp.closed fmap list_fmap]. unfold reverse. simpl rev_append.
  by rewrite !rev_rev_app.
Qed.

Lemma readable_parts plugin :
  readable plugin →
  ∃ c name l location,
    plugin = mkPlugin (String c name) (PluginVersion plugin) (String l location)
    ∧ Regexp.wordOrDash c = true ∧ allChars Regexp.wordOrDash name = true
    ∧ allChars Regexp.dot (PluginVersion plugin) = true
    ∧ Regexp.isLower l = true ∧ allChars Regexp.isLower location = true.
Proof.
  intros (Hn & Hname & Hversion & Hl & Hlocation).
  destruct plugin as [name version location]. simpl in *.
  apply allChars_cons_inv in Hname as (c & name' & -> & Hc & Hname); [|done].
  apply allChars_cons_inv in Hlocation as (l & location' & -> & Hl' & Hlocation); [|done].
  by exists c, name', l, location'.
Qed.

(** X9.  The plugin pattern reads a description back: on the description of
    a readable plugin it finds one match, whose groups are the name, the
    version and the location of the plugin. *)
Theorem FindAllStringSubmatch_describe (plugin : Plugin) (blank1 blank2 : ascii) :
  readable plugin →
  Regexp.space blank1 = true → Regexp.space blank2 = true →
  Regexp.FindAllStringSubmatch Regexp.pluginMetadataExtractor (describe plugin blank1 blank2)
  = [[describe plugin blank1 blank2;
      PluginName plugin; PluginVersion plugin; PluginLocation plugin]].
Proof.
  intros Hp Hb1 Hb2.
  apply readable_parts in Hp as (c & name & l & location & -> & Hc & Hname & Hv & Hl & Hloc).
  by apply FindAllStringSubmatch_parts.
Qed.

Lemma FindAllStringSubmatch_describe_witness :
  Regexp.FindAllStringSubmatch Regexp.pluginMetadataExtractor
    (describe (mkPlugin "vagrant-vbguest" "0.24.0" "global") " " " ")
  = [["vagrant-vbguest (0.24.0%!(VAGRANT_COMMA) global)";
      "vagrant-vbguest"; "0.24.0"; "global"]].
Proof.
  apply (FindAllStringSubmatch_describe (mkPlugin "vagrant-vbguest" "0.24.0" "global")
           " "%char " "%char).
  - repeat split; (discriminate || reflexivity).
  - reflexivity.
  - reflexivity.
Defined.

Lemma FindAllStringSubmatch_parts_inv s m others :
  Regexp.FindAllStringSubmatch Regexp.pluginMetadataExtractor s = m :: others →
  others = []
  ∧ ∃ c name blank1 version blank2 l location,
      Regexp.wordOrDash c = true ∧ allChars Regexp.wordOrDash name = true
      ∧ Regexp.space blank1 = true
      ∧ allChars Regexp.dot version = true
      ∧ Regexp.space blank2 = true
      ∧ Regexp.isLower l = true ∧ allChars Regexp.isLower location = true
      ∧ s = describe (mkPlugin (String c name) version (String l location)) blank1 blank2
      ∧ m = [s; String c name; version; String l location].
Proof.
  unfold Regexp.FindAllStringSubmatch.
  destruct (Regexp.run _ s _) as [st|] eqn:E; [|done].
  intros [= <- <-]. split; [done|].
  apply run_pluginMetadataExtractor_inv in E
    as (c & name & b1 & version & b2 & l & location
        & Hs & Hc & Hname & Hb1 & Hversion & Hb2 & Hl & Hlocation & Hclosed).
  exists c, name, b1, version, b2, l, location.
  repeat (split; [done|]).
  rewrite Hclosed. cbn [fmap list_fmap]. unfold reverse. simpl rev_append.
  by rewrite !rev_rev_app.
Qed.

(** X8.  The plugin pattern matches descriptions only: a match is the only
    one, the text is the description of a readable plugin, and the groups
    are its name, version and location. *)
Theorem FindAllStringSubmatch_shape (s : string) (m : list string)
    (others : list (list string)) :
  Regexp.FindAllStringSubmatch Regexp.pluginMetadataExtractor s = m :: others →
  others = []
  ∧ ∃ plugin blank1 blank2,
      readable plugin
      ∧ Regexp.space blank1 = true ∧ Regexp.space blank2 = true
      ∧ s = describe plugin blank1 blank2
      ∧ m = [s; PluginName plugin; PluginVersion plugin; PluginLocation plugin].
Proof.
  intros H. apply FindAllStringSubmatch_parts_inv in H
    as (-> & c & name & b1 & version & b2 & l & location
        & Hc & Hname & Hb1 & Hversion & Hb2 & Hl & Hlocation & Hs & Hm).
  split; [done|].
  exists (mkPlugin (String c name) version (String l location)), b1, b2.
  split; [|done].
  unfold readable. simpl. rewrite Hc, Hl. done.
Qed.

Lemma FindAllStringSubmatch_shape_witness :
  ∃ plugin blank1 blank2,
    readable plugin
    ∧ Regexp.space blank1 = true ∧ Regexp.space blank2 = true
    ∧ "landrush (1.3.2%!(VAGRANT_COMMA) local)" = describe plugin blank1 blank2
    ∧ ["landrush (1.3.2%!(VAGRANT_COMMA) local)"; "landrush"; "1.3.2"; "local"]
      = ["landrush (1.3.2%!(VAGRANT_COMMA) local)";
         PluginName plugin; PluginVersion plugin; PluginLocation plugin].
Proof.
  apply (FindAllStringSubmatch_shape "landrush (1.3.2%!(VAGRANT_COMMA) local)"
           ["landrush (1.3.2%!(VAGRANT_COMMA) local)"; "landrush"; "1.3.2"; "local"] []).
  reflexivity.
Defined.

(** ** What PluginList returns *)

Lemma pluginStep_other plugins entry :
  mType entry ≠ "ui" → pluginStep plugins entry = Returns plugins.
Proof. intros H. unfold pluginStep. by rewrite decide_False. Qed.

Lemma pluginStep_described plugins entry plugin blank1 blank2 :
  mType entry = "ui" →
  readable plugin → Regexp.space blank1 = true → Regexp.space blank2 = true →
  data entry !! 1 = Some (describe plugin blank1 blank2) →
  pluginStep plugins entry = Returns (plugins ++ [plugin]).
Proof.
  intros Hty Hp Hb1 Hb2 Hdata. unfold pluginStep. rewrite decide_True by done.
  unfold index at 1. rewrite Hdata. simpl.
  apply readable_parts in Hp as (c & name & l & location & -> & Hc & Hname & Hv & Hl & Hloc).
  by rewrite FindAllStringSubmatch_parts.
Qed.

Lemma pluginStep_returns_inv plugins entry plugins' :
  pluginStep plugins entry = Returns plugins' →
  (mType entry ≠ "ui" ∧ plugins' = plugins)
  ∨ (mType entry = "ui"
     ∧ ∃ plugin blank1 blank2,
         readable plugin ∧ Regexp.space blank1 = true ∧ Regexp.space blank2 = true
         ∧ data entry !! 1 = Some (describe plugin blank1 blank2)
         ∧ plugins' = plugins ++ [plugin]).
Proof.
  unfold pluginStep. destruct (decide (mType entry = "ui")) as [Hty|Hty].
  2:{ intros [= <-]. by left. }
  unfold index at 1. destruct (data entry !! 1) as [d|] eqn:Hd; simpl; [|done].
  unfold index at 1.
  destruct (Regexp.FindAllStringSubmatch Regexp.pluginMetadataExtractor d !! 0)
    as [m|] eqn:Hm; simpl; [|done].
  destruct (Regexp.FindAllStringSubmatch Regexp.pluginMetadataExtractor d)
    as [|m' others] eqn:Hall; [done|].
  injection Hm as ->.
  apply FindAllStringSubmatch_parts_inv in Hall
    as (-> & c & name & b1 & version & b2 & l & location
        & Hc & Hname & Hb1 & Hversion & Hb2 & Hl & Hlocation & Hs & ->).
  simpl. intros [= <-]. right. split; [done|].
  exists (mkPlugin (String c name) version (String l location)), b1, b2.
  repeat split; try done; simpl; rewrite ?Hc, ?Hl, ?Hs; done.
Qed.

Lemma foldO_pluginStep_readable records : ∀ acc plugins,
  foldO pluginStep acc records = Returns plugins →
  Forall readable acc → Forall readable plugins.
Proof.
  induction records as [|entry records IH]; intros acc plugins; simpl.
  - by intros [= <-].
  - destruct (pluginStep acc entry) as [acc'|] eqn:Hstep; simpl; [|done].
    intros Hfold Hacc. apply (IH _ _ Hfold).
    apply pluginStep_returns_inv in Hstep
      as [[_ ->]|(_ & plugin & b1 & b2 & Hp & _ & _ & _ & ->)]; [done|].
    apply Forall_app. split; [done|]. by constructor.
Qed.

(** ** The commands handed to the runner *)

Lemma exec_calls w args σ : calls (exec w args σ).2 = (executable w, args) :: calls σ.
Proof.
  unfold exec, bind, logLine, callRunner, ret. simpl.
  by destruct (@Execute (runner w) (executable w) args).
Qed.

Lemma quiet_ret {A} (a : A) : quiet (ret a).
Proof. by intros σ. Qed.

Lemma quiet_lift {A} (o : outcome A) : quiet (lift o).
Proof. by intros σ. Qed.

Lemma quiet_info out : quiet (info out).
Proof. intros σ. unfold info. by destruct (decide _). Qed.

Lemma quiet_bind {A B} (m : M A) (k : A → M B) :
  quiet m → (∀ a, quiet (k a)) → quiet (bind m k).
Proof.
  intros Hm Hk σ. unfold bind. specialize (Hm σ).
  destruct (m σ) as [[a|p] σ']; simpl in *; [|done].
  by rewrite Hk.
Qed.

Lemma bind_exec_calls {B} w args (k : string * option error → M B) σ :
  (∀ r, quiet (k r)) →
  calls (bind (exec w args) k σ).2 = (executable w, args) :: calls σ.
Proof.
  intros Hk. unfold bind. pose proof (exec_calls w args σ) as Hexec.
  destruct (exec w args σ) as [[r|p] σ']; simpl in *; [|done].
  by rewrite Hk.
Qed.

Ltac quiet_tac :=
  repeat first
    [ apply quiet_ret | apply quiet_lift | apply quiet_info
    | apply quiet_bind; [|intros ?]
    | match goal with |- quiet (match ?x with _ => _ end) => destruct x end ].

(** X2.  Every operation hands one command to the runner, whatever the
    runner answers and whatever the output holds: up; halt; destroy with
    --force; status, version and plugin list with --machine-readable; ssh
    with --no-tty and the command as one argument behind --command. *)
Theorem operations_call_once (newlineToken : string) (zeroState : MachineState)
    (rangeMap : gmap string MachineStatus → list MachineStatus)
    (w : wrapper) (σ : World) :
  calls (Up w σ).2 = (executable w, ["up"]) :: calls σ
  ∧ calls (Halt w σ).2 = (executable w, ["halt"]) :: calls σ
  ∧ calls (Destroy w σ).2 = (executable w, ["destroy"; "--force"]) :: calls σ
  ∧ calls (Status newlineToken zeroState rangeMap w σ).2
    = (executable w, ["status"; "--machine-readable"]) :: calls σ
  ∧ calls (Version newlineToken w σ).2
    = (executable w, ["version"; "--machine-readable"]) :: calls σ
  ∧ (∀ command, calls (SSH w command σ).2
                = (executable w, ["ssh"; "--no-tty"; "--command"; command]) :: calls σ)
  ∧ calls (PluginList newlineToken w σ).2
    = (executable w, ["plugin"; "list"; "--machine-readable"]) :: calls σ.
Proof.
  repeat split; try intros command;
    (apply bind_exec_calls; intros [out err]; cbn [fst snd]; quiet_tac).
Qed.

Lemma PluginInstall_calls w plugin σ :
  PluginName plugin ≠ "" →
  calls (PluginInstall w plugin σ).2 = (executable w, installArgs plugin) :: calls σ.
Proof.
  intros Hname. unfold PluginInstall.
  rewrite decide_False by (by rewrite length_zero_iff).
  cbv zeta. rewrite installArgs_eq.
  apply bind_exec_calls. intros [out err]. cbn [fst snd]. quiet_tac.
Qed.

(** X3.  [PluginInstall] of a plugin with a name hands the runner plugin,
    install and the name, then --plugin-version and the version when there
    is one, then --local when the location is local, and nothing else,
    whatever the runner answers. *)
Theorem PluginInstall_arguments (w : wrapper) (plugin : Plugin) (σ : World) :
  PluginName plugin ≠ "" →
  calls (PluginInstall w plugin σ).2
  = (executable w,
     ["plugin"; "install"; PluginName plugin]
     ++ (if decide (PluginVersion plugin = "") then []
         else ["--plugin-version"; PluginVersion plugin])
     ++ (if decide (PluginLocation plugin = "local") then ["--local"] else []))
    :: calls σ.
Proof.
  intros Hname. unfold PluginInstall.
  rewrite decide_False by (by rewrite length_zero_iff).
  cbv zeta. rewrite installArgs_eq. unfold installArgs.
  apply bind_exec_calls. intros [out err]. cbn [fst snd].
  apply quiet_bind; [|intros ?; apply quiet_ret].
  destruct err; [apply quiet_ret|apply quiet_info].
Qed.

Lemma PluginInstall_arguments_witness :
  let w := mkWrapper binary (λ _ _, Panics (PanicMessage "unexpected error: no vagrant")) in
  calls (PluginInstall w (mkPlugin "vagrant-vbguest" "0.24.0" "local") (mkWorld [] [])).2
  = [("vagrant",
      ["plugin"; "install"; "vagrant-vbguest"; "--plugin-version"; "0.24.0"; "--local"])].
Proof.
  intros w.
  apply (PluginInstall_arguments w (mkPlugin "vagrant-vbguest" "0.24.0" "local")
           (mkWorld [] [])).
  discriminate.
Defined.

(** X10.  When the second data field of every record of type ui is the
    description of a readable plugin, the loop of [PluginList] adds those
    plugins to the ones it has, one for each such record and in the order of
    the stream; records of other types add nothing.  From the empty list, as
    [PluginList] starts it, it returns exactly those plugins. *)
Theorem pluginLoop_returns_described (records : list machineInfoEntry) :
  ∀ (acc plugins : list Plugin),
  Forall2 (λ entry plugin,
             readable plugin
             ∧ ∃ blank1 blank2,
                 Regexp.space blank1 = true ∧ Regexp.space blank2 = true
                 ∧ data entry !! 1 = Some (describe plugin blank1 blank2))
          (filter (λ entry, mType entry = "ui") records) plugins →
  foldO pluginStep acc records = Returns (acc ++ plugins).
Proof.
  induction records as [|entry records IH]; intros acc plugins H.
  - apply Forall2_nil_inv_l in H as ->. simpl. by rewrite app_nil_r.
  - rewrite filter_cons in H. simpl. destruct (decide (mType entry = "ui")) as [Hty|Hty].
    + apply Forall2_cons_inv_l in H
        as (plugin & plugins' & (Hp & b1 & b2 & Hb1 & Hb2 & Hd) & H & ->).
      rewrite (pluginStep_described _ _ _ _ _ Hty Hp Hb1 Hb2 Hd). simpl.
      rewrite (IH _ _ H). by rewrite <- app_assoc.
    + rewrite (pluginStep_other _ _ Hty). simpl. by apply IH.
Qed.

Lemma pluginLoop_returns_described_witness :
  foldO pluginStep []
    [MachineInfoEntry 1700000000 "" "ui"
       ["info"; "vagrant-vbguest (0.24.0%!(VAGRANT_COMMA) global)"];
     MachineInfoEntry 1700000000 "" "plugin-name" ["vagrant-vbguest"];
     MachineInfoEntry 1700000000 "" "ui" ["info"; "landrush (1.3.2%!(VAGRANT_COMMA) local)"]]
  = Returns [mkPlugin "vagrant-vbguest" "0.24.0" "global"; mkPlugin "landrush" "1.3.2" "local"].
Proof.
  apply (pluginLoop_returns_described _ []).
  rewrite !filter_cons. simpl.
  repeat constructor; try discriminate; exists " "%char, " "%char; repeat split.
Defined.

(** X11.  Every plugin the loop of [PluginList] returns is readable, so its
    name is not empty and [PluginInstall] takes it: the install command for
    it reaches the runner. *)
Theorem pluginLoop_installable (records : list machineInfoEntry) (plugins : list Plugin) :
  foldO pluginStep [] records = Returns plugins →
  ∀ plugin, plugin ∈ plugins →
    readable plugin
    ∧ ∀ w σ, calls (PluginInstall w plugin σ).2
             = (executable w, installArgs plugin) :: calls σ.
Proof.
  intros Hfold plugin Hin.
  assert (Forall readable plugins) as Hall
    by (by apply (foldO_pluginStep_readable _ _ _ Hfold)).
  rewrite Forall_forall in Hall. specialize (Hall plugin Hin).
  split; [done|]. intros w σ. apply PluginInstall_calls. by destruct Hall.
Qed.

Lemma pluginLoop_installable_witness :
  let w := mkWrapper binary (λ _ _, Returns ("", None)) in
  calls (PluginInstall w (mkPlugin "landrush" "1.3.2" "local") (mkWorld [] [])).2
  = [("vagrant", ["plugin"; "install"; "landrush"; "--plugin-version"; "1.3.2"; "--local"])].
Proof.
  intros w.
  apply (pluginLoop_installable
           [MachineInfoEntry 1700000000 "" "ui"
              ["info"; "landrush (1.3.2%!(VAGRANT_COMMA) local)"]]
           [mkPlugin "landrush" "1.3.2" "local"]).
  - reflexivity.
  - apply list_elem_of_singleton. reflexivity.
Defined.

(** ** The runner and what the operations make of its answer *)

(** X1.  [Execute] of the shell runner returns the standard output of a
    process that ran, with no error when it exited with code zero; it panics
    when the process could not be run; and an error it returns is always the
    [ExitError] of a code other than zero for the command. *)
Theorem Execute_outcomes (os : string → list string → process)
    (cmd : string) (args : list string) :
  (ended (os cmd args) = Exited 0 →
   @Execute (ShellRunner os) cmd args = Returns (stdout (os cmd args), None))
  ∧ (∀ reason, ended (os cmd args) = NotRun reason →
       @Execute (ShellRunner os) cmd args
       = Panics (PanicMessage ("unexpected error: " +:+ reason)))
  ∧ (∀ out err, @Execute (ShellRunner os) cmd args = Returns (out, err) →
       out = stdout (os cmd args)
       ∧ ∀ e, err = Some e →
              ∃ code, code ≠ 0%Z ∧ ended (os cmd args) = Exited code
                      ∧ e = ExitError cmd code (stderr (os cmd args))).
Proof.
  unfold Execute, ShellRunner, cmdRun. split; [|split].
  - by intros ->.
  - by intros reason ->.
  - intros out err. destruct (ended (os cmd args)) as [code|reason]; [|done].
    destruct (decide (code = 0%Z)) as [->|Hcode].
    + intros [= <- <-]. split; [done|]. by intros e.
    + intros [= <- <-]. split; [done|]. intros e [= <-]. by exists code.
Qed.

Lemma Execute_outcomes_witness :
  let os : string → list string → process :=
    λ _ args, match args with
              | ["up"] => Process "Bringing machine up" "" (Exited 0)
              | _ => Process "" "" (NotRun "executable file not found")
              end in
  @Execute (ShellRunner os) "vagrant" ["up"] = Returns ("Bringing machine up", None)
  ∧ @Execute (ShellRunner os) "vagrant" ["halt"]
    = Panics (PanicMessage "unexpected error: executable file not found").
Proof.
  intros os. split.
  - apply (proj1 (Execute_outcomes os "vagrant" ["up"])). reflexivity.
  - apply (proj1 (proj2 (Execute_outcomes os "vagrant" ["halt"]))). reflexivity.
Defined.

Lemma exec_logged w args out err σ :
  @Execute (runner w) (executable w) args = Returns (out, err) →
  exec w args σ
  = (Returns (out, err),
     mkWorld ((executable w, args) :: calls σ)
       ((DebugLevel, "Command output [" +:+ commandLine w args +:+ "]: " +:+ out)
        :: (InfoLevel, "Running command [" +:+ commandLine w args +:+ "]") :: logged σ)).
Proof.
  intros H. unfold exec, bind, logLine, callRunner, ret. simpl. by rewrite H.
Qed.

Lemma exec_panics w args p σ :
  @Execute (runner w) (executable w) args = Panics p →
  exec w args σ
  = (Panics p,
     mkWorld ((executable w, args) :: calls σ)
       ((InfoLevel, "Running command [" +:+ commandLine w args +:+ "]") :: logged σ)).
Proof.
  intros H. unfold exec, bind, logLine, callRunner, ret. simpl. by rewrite H.
Qed.

Lemma lifecycle_logged w args out err σ :
  @Execute (runner w) (executable w) args = Returns (out, err) →
  logged (bind (exec w args)
            (λ r, bind (if r.2 is None then info r.1 else ret tt) (λ _, ret r.2)) σ).2
  = commandLog w args out err ++ logged σ.
Proof.
  intros H. unfold bind. rewrite (exec_logged _ _ _ _ _ H). cbn [fst snd].
  unfold commandLog. destruct err as [e|].
  - rewrite decide_False by (by intros [? _]). done.
  - unfold info. destruct out as [|c out].
    + rewrite decide_False by (simpl; lia). rewrite decide_False by (by intros [_ ?]). done.
    + rewrite decide_True by (simpl; lia). rewrite decide_True by done. done.
Qed.

(** X12.  Each of the lifecycle operations logs the command line before its
    command runs and the output for debugging; the output is logged for
    information only when the command succeeded and wrote any; and when the
    runner panics on the command, the command line is all that is logged. *)
Theorem lifecycle_log (w : wrapper) (σ : World) :
  (∀ out err,
     (@Execute (runner w) (executable w) ["up"] = Returns (out, err) →
      logged (Up w σ).2 = commandLog w ["up"] out err ++ logged σ)
     ∧ (@Execute (runner w) (executable w) ["halt"] = Returns (out, err) →
        logged (Halt w σ).2 = commandLog w ["halt"] out err ++ logged σ)
     ∧ (@Execute (runner w) (executable w) ["destroy"; "--force"] = Returns (out, err) →
        logged (Destroy w σ).2 = commandLog w ["destroy"; "--force"] out err ++ logged σ))
  ∧ (∀ p,
     (@Execute (runner w) (executable w) ["up"] = Panics p →
      logged (Up w σ).2
      = (InfoLevel, "Running command [" +:+ commandLine w ["up"] +:+ "]") :: logged σ)
     ∧ (@Execute (runner w) (executable w) ["halt"] = Panics p →
        logged (Halt w σ).2
        = (InfoLevel, "Running command [" +:+ commandLine w ["halt"] +:+ "]") :: logged σ)
     ∧ (@Execute (runner w) (executable w) ["destroy"; "--force"] = Panics p →
        logged (Destroy w σ).2
        = (InfoLevel, "Running command [" +:+ commandLine w ["destroy"; "--force"] +:+ "]")
          :: logged σ)).
Proof.
  split.
  - intros out err. repeat split; intros H; by apply lifecycle_logged.
  - intros p. repeat split; intros H.
    + unfold Up, bind. by rewrite (exec_panics _ _ _ _ H).
    + unfold Halt, bind. by rewrite (exec_panics _ _ _ _ H).
    + unfold Destroy, bind. by rewrite (exec_panics _ _ _ _ H).
Qed.

Lemma lifecycle_log_witness :
  let w :=
    mkWrapper binary
      (λ _ args, match args with
                 | ["destroy"; "--force"] => Returns ("", Some (ExitError "vagrant" 1 "boom"))
                 | ["halt"] => Panics (PanicMessage "unexpected error: no vagrant")
                 | _ => Returns ("ok", None)
                 end) in
  logged (Destroy w (mkWorld [] [])).2
  = [(DebugLevel, "Command output [vagrant destroy --force]: ");
     (InfoLevel, "Running command [vagrant destroy --force]")]
  ∧ logged (Halt w (mkWorld [] [])).2 = [(InfoLevel, "Running command [vagrant halt]")]
  ∧ logged (Up w (mkWorld [] [])).2
    = [(InfoLevel, "ok"); (DebugLevel, "Command output [vagrant up]: ok");
       (InfoLevel, "Running command [vagrant up]")].
Proof.
  intros w. split; [|split].
  - apply (proj2 (proj2 (proj1 (lifecycle_log w (mkWorld [] [])) ""
                           (Some (ExitError "vagrant" 1 "boom"))))).
    reflexivity.
  - apply (proj1 (proj2 (proj2 (lifecycle_log w (mkWorld [] []))
                           (PanicMessage "unexpected error: no vagrant")))).
    reflexivity.
  - apply (proj1 (proj1 (lifecycle_log w (mkWorld [] [])) "ok" None)).
    reflexivity.
Defined.

(** X13.  [SSH] returns the answer of the runner as it is: the output comes
    back together with the error, and a panic of the runner is the panic of
    [SSH]. *)
Theorem SSH_transparent (w : wrapper) (command : string) (σ : World) :
  (SSH w command σ).1
  = @Execute (runner w) (executable w) ["ssh"; "--no-tty"; "--command"; command].
Proof.
  unfold SSH, bind.
  destruct (@Execute (runner w) (executable w) ["ssh"; "--no-tty"; "--command"; command])
    as [[out err]|p] eqn:E.
  - by rewrite (exec_logged _ _ _ _ _ E).
  - by rewrite (exec_panics _ _ _ _ E).
Qed.

(** X4.  When the command of [Status], of [Version] or of [PluginList]
    succeeds and the reader fails on its output, the operation returns the
    error of the reader, with no statuses, no version and no plugins. *)
Theorem parse_error_returned (newlineToken : string) (zeroState : MachineState)
    (rangeMap : gmap string MachineStatus → list MachineStatus)
    (w : wrapper) (out : string) (records : list machineInfoEntry) (e : error) (σ : World) :
  parseMachineReadable newlineToken out = (records, Some e) →
  (@Execute (runner w) (executable w) ["status"; "--machine-readable"]
   = Returns (out, None) →
   (Status newlineToken zeroState rangeMap w σ).1 = Returns ([], Some e))
  ∧ (@Execute (runner w) (executable w) ["version"; "--machine-readable"]
     = Returns (out, None) →
     (Version newlineToken w σ).1 = Returns ("", Some e))
  ∧ (@Execute (runner w) (executable w) ["plugin"; "list"; "--machine-readable"]
     = Returns (out, None) →
     (PluginList newlineToken w σ).1 = Returns ([], Some e)).
Proof.
  intros Hparse. repeat split; intros Hrun.
  - unfold Status, bind. rewrite (exec_logged _ _ _ _ _ Hrun). simpl. by rewrite Hparse.
  - unfold Version, bind. rewrite (exec_logged _ _ _ _ _ Hrun). simpl. by rewrite Hparse.
  - unfold PluginList, bind. rewrite (exec_logged _ _ _ _ _ Hrun). simpl.
    by rewrite Hparse.
Qed.

Lemma parse_error_returned_witness :
  let w :=
    mkWrapper binary
      (λ _ args, match args with
                 | ["up"] => Returns ("", Some (ExitError "vagrant" 1 "boom"))
                 | _ => Returns ("not machine readable", None)
                 end) in
  (Status "\n" Unknown (λ m, (map_to_list m).*2) w (mkWorld [] [])).1
  = Returns ([], Some MalformedRecordError)
  ∧ (Version "\n" w (mkWorld [] [])).1 = Returns ("", Some MalformedRecordError)
  ∧ (PluginList "\n" w (mkWorld [] [])).1 = Returns ([], Some MalformedRecordError).
Proof.
  intros w. split; [|split].
  - apply (proj1 (parse_error_returned "\n" Unknown (λ m, (map_to_list m).*2) w
                    "not machine readable" [] MalformedRecordError (mkWorld [] [])
                    eq_refl)).
    reflexivity.
  - apply (proj1 (proj2 (parse_error_returned "\n" Unknown (λ m, (map_to_list m).*2) w
                           "not machine readable" [] MalformedRecordError (mkWorld [] [])
                           eq_refl))).
    reflexivity.
  - apply (proj2 (proj2 (parse_error_returned "\n" Unknown (λ m, (map_to_list m).*2) w
                           "not machine readable" [] MalformedRecordError (mkWorld [] [])
                           eq_refl))).
    reflexivity.
Defined.

(** X7.  [Version] reads the first element of the data of the first record
    of type version-installed without a check: when that record has no data,
    [Version] panics, whatever the later records hold. *)
Theorem Version_no_data_panics (newlineToken : string) (w : wrapper) (out : string)
    (pre post : list machineInfoEntry) (r : machineInfoEntry) (σ : World) :
  @Execute (runner w) (executable w) ["version"; "--machine-readable"]
  = Returns (out, None) →
  parseMachineReadable newlineToken out = (pre ++ r :: post, None) →
  Forall (λ x, mType x ≠ "version-installed") pre →
  mType r = "version-installed" →
  data r = [] →
  (Version newlineToken w σ).1 = Panics (IndexOutOfRange 0 0).
Proof.
  intros Hrun Hparse Hpre Hty Hdata.
  unfold Version, bind. rewrite (exec_logged _ _ _ _ _ Hrun). simpl. rewrite Hparse.
  rewrite (pluckEntryData_match _ _ pre r post eq_refl Hpre Hty), Hdata. done.
Qed.

Lemma Version_no_data_panics_witness :
  let out :=
    "1700000000,,version-installed," +:+ String Str.newline
    "1700000000,,version-installed,2.2.6" in
  let w := mkWrapper binary (λ _ _, Returns (out, None)) in
  (Version "\n" w (mkWorld [] [])).1 = Panics (IndexOutOfRange 0 0).
Proof.
  intros out w.
  apply (Version_no_data_panics "\n" w out []
           [MachineInfoEntry 1700000000 "" "version-installed" ["2.2.6"]]
           (MachineInfoEntry 1700000000 "" "version-installed" [])).
  - reflexivity.
  - reflexivity.
  - constructor.
  - reflexivity.
  - reflexivity.
Defined.

(** ** What Status makes of the records of a target *)

Lemma lastValue_other ty tg entry records :
  target entry ≠ tg → lastValue ty tg (entry :: records) = lastValue ty tg records.
Proof.
  intros H. unfold lastValue. rewrite filter_cons.
  rewrite decide_False; [done|]. by intros [? _].
Qed.

Lemma lastValue_same ty entry records :
  lastValue ty (target entry) (entry :: records)
  = match last (filter (λ e, target e = target entry ∧ mType e = ty) records) with
    | Some y => head (data y)
    | None => valueOf ty entry
    end.
Proof.
  unfold lastValue, valueOf. rewrite filter_cons.
  destruct (decide (mType entry = ty)) as [Hty|Hty].
  - rewrite decide_True by done. rewrite last_cons.
    by destruct (last (filter _ records)).
  - rewrite decide_False by (by intros [_ ?]).
    by destruct (last (filter _ records)).
Qed.

Lemma last_record_has_data ty tg records y :
  tg ≠ "" → ty = "provider-name" ∨ ty = "state" →
  Forall hasFirstData records →
  last (filter (λ e, target e = tg ∧ mType e = ty) records) = Some y →
  ∃ d, head (data y) = Some d.
Proof.
  intros Htg Hty Hsafe Hlast.
  apply last_Some in Hlast as [l' Hl'].
  assert (y ∈ filter (λ e, target e = tg ∧ mType e = ty) records) as Hin.
  { rewrite Hl'. apply elem_of_app. right. by apply list_elem_of_singleton. }
  apply list_elem_of_filter in Hin as [[Hy1 Hy2] Hin].
  rewrite Forall_forall in Hsafe. specialize (Hsafe y Hin).
  destruct (data y) as [|d rest] eqn:E; [|by exists d].
  exfalso. apply Hsafe; [congruence| |done].
  destruct Hty; subst; auto.
Qed.

Lemma last_record_none ty tg records :
  tg ≠ "" → tg ∉ targets records →
  last (filter (λ e, target e = tg ∧ mType e = ty) records) = None.
Proof.
  intros Htg Hnot. apply last_None.
  destruct (filter _ records) as [|y l] eqn:E; [done|].
  assert (y ∈ filter (λ e, target e = tg ∧ mType e = ty) records) as Hin
    by (rewrite E; apply list_elem_of_here).
  apply list_elem_of_filter in Hin as [[Hy1 Hy2] Hin].
  exfalso. apply Hnot. unfold targets. apply elem_of_list_to_set.
  apply list_elem_of_filter. split; [done|].
  apply list_elem_of_fmap. by exists y.
Qed.

Lemma lastValue_combine {A} (g : string → A) (a : A) ty entry records :
  ty = "provider-name" ∨ ty = "state" →
  target entry ≠ "" →
  Forall hasFirstData records →
  default (default a (g <$> valueOf ty entry)) (g <$> lastValue ty (target entry) records)
  = default a (g <$> lastValue ty (target entry) (entry :: records)).
Proof.
  intros Hty Htg Hsafe. rewrite lastValue_same. unfold lastValue.
  destruct (last (filter _ records)) as [y|] eqn:E; simpl; [|done].
  destruct (last_record_has_data _ _ _ _ Htg Hty Hsafe E) as [d Hd].
  by rewrite Hd.
Qed.

Lemma statusStep_value zeroState m entry :
  target entry ≠ "" → hasFirstData entry → namedByKey m →
  statusStep zeroState m entry
  = Returns (<[target entry :=
                mkMachineStatus (target entry)
                  (default (Provider (fetched zeroState m (target entry)))
                     (id <$> valueOf "provider-name" entry))
                  (default (State (fetched zeroState m (target entry)))
                     (ToMachineState <$> valueOf "state" entry))]> m).
Proof.
  intros Htg Hsafe Hm. rewrite (statusStep_target _ _ _ Htg). simpl.
  pose proof (fetched_name zeroState m (target entry) Hm) as Hname.
  unfold valueOf, hasFirstData in *.
  destruct (decide (mType entry = "provider-name")) as [Hp|Hp].
  - rewrite (decide_False (P := mType entry = "state")) by (rewrite Hp; discriminate).
    destruct (data entry) as [|d rest] eqn:E; [exfalso; apply Hsafe; auto|].
    simpl. by rewrite Hname.
  - destruct (decide (mType entry = "state")) as [Hs|Hs].
    + destruct (data entry) as [|d rest] eqn:E; [exfalso; apply Hsafe; auto|].
      simpl. by rewrite Hname.
    + simpl. destruct (fetched zeroState m (target entry)) as [n p s].
      simpl in Hname. by rewrite Hname.
Qed.

Lemma foldO_statusStep_last zeroState records : ∀ m,
  namedByKey m → Forall hasFirstData records →
  ∃ m', foldO (statusStep zeroState) m records = Returns m'
        ∧ ∀ tg, tg ≠ "" →
            m' !! tg =
            if decide (tg ∈ targets records) then
              Some (mkMachineStatus tg
                      (default (Provider (fetched zeroState m tg))
                         (id <$> lastValue "provider-name" tg records))
                      (default (State (fetched zeroState m tg))
                         (ToMachineState <$> lastValue "state" tg records)))
            else m !! tg.
Proof.
  induction records as [|entry records IH]; intros m Hm Hsafe.
  - exists m. split; [done|]. intros tg Htg.
    rewrite decide_False; [done|]. unfold targets. simpl. apply not_elem_of_empty.
  - apply Forall_cons in Hsafe as [Hentry Hsafe]. simpl.
    destruct (decide (target entry = "")) as [He|He].
    + rewrite (statusStep_no_target _ _ _ He). simpl.
      destruct (IH m Hm Hsafe) as (m' & Hfold & Hlook).
      exists m'. split; [done|]. intros tg Htg.
      rewrite targets_cons, (decide_True (P := target entry = "")) by done.
      rewrite (left_id_L ∅ (∪)).
      rewrite !lastValue_other by congruence. by apply Hlook.
    + rewrite (statusStep_value _ _ _ He Hentry Hm). simpl.
      set (st1 := mkMachineStatus (target entry) _ _).
      destruct (IH (<[target entry := st1]> m)) as (m' & Hfold & Hlook); [|done|].
      { intros k st Hk. apply lookup_insert_Some in Hk as [[<- <-]|[_ Hk]]; [done|].
        by apply Hm. }
      exists m'. split; [done|]. intros tg Htg. rewrite (Hlook tg Htg).
      rewrite targets_cons, (decide_False (P := target entry = "")) by done.
      destruct (decide (tg = target entry)) as [->|Hne].
      * rewrite (decide_True (P := target entry ∈ {[target entry]} ∪ targets records))
          by (apply elem_of_union; left; by apply elem_of_singleton).
        unfold fetched at 1 2. rewrite lookup_insert_eq. simpl.
        rewrite <- (lastValue_combine id) by auto.
        rewrite <- (lastValue_combine ToMachineState) by auto.
        destruct (decide (target entry ∈ targets records)) as [Hin|Hnot]; [done|].
        unfold lastValue. rewrite !last_record_none by done. done.
      * unfold fetched. rewrite lookup_insert_ne by done.
        rewrite !lastValue_other by done.
        destruct (decide (tg ∈ targets records)) as [Hin|Hnot].
        -- rewrite decide_True by (apply elem_of_union; by right). done.
        -- rewrite decide_False; [done|].
           intros [H|H]%elem_of_union; [|done].
           by apply elem_of_singleton in H.
Qed.

(** X5.  In what [Status] returns the last record wins: the provider of a
    machine is the first data element of the last provider-name record of its
    target, its state is the mapped first data element of the last state
    record of its target, and without such a record the provider is empty and
    the state is the one a fresh status has. *)
Theorem Status_last_record_wins (newlineToken : string) (zeroState : MachineState)
    (rangeMap : gmap string MachineStatus → list MachineStatus)
    (w : wrapper) (out : string) (records : list machineInfoEntry) (σ : World) :
  (∀ m, rangeMap m ≡ₚ (map_to_list m).*2) →
  @Execute (runner w) (executable w) ["status"; "--machine-readable"] = Returns (out, None) →
  parseMachineReadable newlineToken out = (records, None) →
  Forall hasFirstData records →
  ∃ statuses,
    (Status newlineToken zeroState rangeMap w σ).1 = Returns (statuses, None)
    ∧ ∀ st, st ∈ statuses →
        st = mkMachineStatus (Name st)
               (default "" (lastValue "provider-name" (Name st) records))
               (default zeroState (ToMachineState <$> lastValue "state" (Name st) records)).
Proof.
  intros Hrange Hrun Hparse Hsafe.
  destruct (exec_returns w _ _ σ Hrun) as (σ' & Hexec & _).
  assert (namedByKey (∅ : gmap string MachineStatus)) as Hempty
    by (intros k st Hk; by rewrite lookup_empty in Hk).
  destruct (foldO_statusStep_last zeroState records ∅ Hempty Hsafe) as (m & Hfold & Hlook).
  destruct (foldO_statusStep zeroState records ∅ Hempty Hsafe) as (m2 & Hfold2 & Hm & Hdom).
  rewrite Hfold in Hfold2. injection Hfold2 as <-.
  rewrite dom_empty_L, (left_id_L ∅ (∪)) in Hdom.
  exists (rangeMap m). split.
  - unfold Status, bind. rewrite Hexec. simpl. rewrite Hparse.
    unfold lift, buildStatusMap. rewrite Hfold. done.
  - intros st Hin. rewrite (Hrange m) in Hin.
    apply list_elem_of_fmap in Hin as ([k st'] & -> & Hin). simpl.
    apply elem_of_map_to_list in Hin.
    assert (k ∈ targets records) as Hk by (rewrite <- Hdom; by apply elem_of_dom).
    assert (k ≠ "") as Hne.
    { unfold targets in Hk. apply elem_of_list_to_set in Hk.
      by apply list_elem_of_filter in Hk as [? _]. }
    rewrite (Hlook k Hne), decide_True in Hin by done.
    injection Hin as <-. simpl. unfold fetched. rewrite lookup_empty. simpl.
    by rewrite option_fmap_id.
Qed.

Lemma Status_last_record_wins_witness :
  let out :=
    "1700000000,default,provider-name,virtualbox" +:+ String Str.newline
    "1700000000,default,state,poweroff" +:+ String Str.newline
    "1700000001,default,state,running" +:+ String Str.newline "" in
  let records :=
    [MachineInfoEntry 1700000000 "default" "provider-name" ["virtualbox"];
     MachineInfoEntry 1700000000 "default" "state" ["poweroff"];
     MachineInfoEntry 1700000001 "default" "state" ["running"]] in
  let w := mkWrapper binary (λ _ _, Returns (out, None)) in
  ∃ statuses,
    (Status "\n" Unknown (λ m, (map_to_list m).*2) w (mkWorld [] [])).1
    = Returns (statuses, None)
    ∧ ∀ st, st ∈ statuses →
        st = mkMachineStatus (Name st)
               (default "" (lastValue "provider-name" (Name st) records))
               (default Unknown (ToMachineState <$> lastValue "state" (Name st) records)).
Proof.
  intros out records w.
  apply (Status_last_record_wins "\n" Unknown (λ m, (map_to_list m).*2) w out records).
  - intros m. reflexivity.
  - reflexivity.
  - vm_compute. reflexivity.
  - repeat constructor; intros Htg Hty; discriminate.
Defined.

Lemma statusStep_panic zeroState m entry p :
  statusStep zeroState m entry = Panics p →
  p = IndexOutOfRange 0 0
  ∧ target entry ≠ ""
  ∧ (mType entry = "provider-name" ∨ mType entry = "state")
  ∧ data entry = [].
Proof.
  destruct (decide (target entry = "")) as [He|He].
  { by rewrite (statusStep_no_target _ _ _ He). }
  rewrite (statusStep_target _ _ _ He). simpl.
  destruct (decide (mType entry = "provider-name")) as [Hp|Hp].
  - destruct (data entry) as [|d rest]; simpl; [|done].
    intros [= <-]. auto.
  - destruct (decide (mType entry = "state")) as [Hs|Hs]; [|done].
    destruct (data entry) as [|d rest]; simpl; [|done].
    intros [= <-]. auto.
Qed.

Lemma foldO_statusStep_panic zeroState records : ∀ m p,
  foldO (statusStep zeroState) m records = Panics p →
  p = IndexOutOfRange 0 0 ∧ ¬ Forall hasFirstData records.
Proof.
  induction records as [|entry records IH]; intros m p; simpl; [done|].
  destruct (statusStep zeroState m entry) as [m1|p1] eqn:Hstep; simpl.
  - intros H. destruct (IH _ _ H) as [-> Hnot]. split; [done|].
    intros Hall. apply Hnot. by apply Forall_cons in Hall as [_ ?].
  - intros [= <-]. apply statusStep_panic in Hstep as (-> & Htg & Hty & Hdata).
    split; [done|]. intros Hall. apply Forall_cons in Hall as [Hentry _].
    by apply Hentry.
Qed.

(** X6.  The loop of [Status] ends without a panic exactly when every record
    with a target and the type provider-name or state has a data element;
    the panic of the other case is that of index 0 in a slice of length 0. *)
Theorem buildStatusMap_returns_iff (zeroState : MachineState)
    (records : list machineInfoEntry) :
  ((∃ m, buildStatusMap zeroState records = Returns m) ↔ Forall hasFirstData records)
  ∧ (∀ p, buildStatusMap zeroState records = Panics p → p = IndexOutOfRange 0 0).
Proof.
  unfold buildStatusMap. split; [split|].
  - intros [m Hm].
    destruct (decide (Forall hasFirstData records)) as [|Hnot]; [done|].
    exfalso. revert Hnot Hm. generalize (∅ : gmap string MachineStatus).
    induction records as [|entry records IH]; intros m0 Hnot; simpl.
    { by destruct Hnot. }
    destruct (statusStep zeroState m0 entry) as [m1|p1] eqn:Hstep; simpl; [|done].
    intros Hfold. apply (IH m1); [|done]. intros Hall. apply Hnot.
    constructor; [|done]. intros Htg Hty Hdata.
    rewrite (statusStep_target _ _ _ Htg) in Hstep. simpl in Hstep.
    rewrite Hdata in Hstep. destruct Hty as [Hty|Hty].
    + by rewrite decide_True in Hstep.
    + rewrite decide_False, decide_True in Hstep by (done || (rewrite Hty; discriminate)).
      done.
  - intros Hsafe.
    destruct (foldO_statusStep zeroState records ∅) as (m & Hm & _); [|done|by exists m].
    intros k st Hk. by rewrite lookup_empty in Hk.
  - intros p Hp. by destruct (foldO_statusStep_panic _ _ _ _ Hp).
Qed.

Lemma buildStatusMap_returns_iff_witness :
  Forall hasFirstData
    [MachineInfoEntry 1700000000 "default" "state" ["running"];
     MachineInfoEntry 1700000000 "default" "ui" []].
Proof.
  apply (proj1 (proj1 (buildStatusMap_returns_iff Unknown
           [MachineInfoEntry 1700000000 "default" "state" ["running"];
            MachineInfoEntry 1700000000 "default" "ui" []]))).
  eexists. vm_compute. reflexivity.
Defined.

Lemma lifecycle_result w args σ :
  (bind (exec w args)
     (λ r, bind (if r.2 is None then info r.1 else ret tt) (λ _, ret r.2)) σ).1
  = match @Execute (runner w) (executable w) args with
    | Returns (_, err) => Returns err
    | Panics p => Panics p
    end.
Proof.
  unfold bind. destruct (@Execute (runner w) (executable w) args) as [[out err]|p] eqn:E.
  - rewrite (exec_logged _ _ _ _ _ E). cbn [fst snd].
    destruct err as [e|]; [done|]. unfold info. by destruct (decide _).
  - by rewrite (exec_panics _ _ _ _ E).
Qed.

(** X14.  The lifecycle operations of the wrapper [New] builds run the
    vagrant binary: they return no error when it exits with code zero, the
    [ExitError] of vagrant with the code and the standard error when it exits
    with another code, and panic when it could not be run. *)
Theorem New_lifecycle (os : string → list string → process) (σ : World) :
  let result args :=
    match ended (os "vagrant" args) with
    | Exited code =>
        if decide (code = 0%Z) then Returns None
        else Returns (Some (ExitError "vagrant" code (stderr (os "vagrant" args))))
    | NotRun reason => Panics (PanicMessage ("unexpected error: " +:+ reason))
    end in
  (Up (New os) σ).1 = result ["up"]
  ∧ (Halt (New os) σ).1 = result ["halt"]
  ∧ (Destroy (New os) σ).1 = result ["destroy"; "--force"].
Proof.
  assert (∀ args,
    match @Execute (runner (New os)) (executable (New os)) args with
    | Returns (_, err) => Returns err
    | Panics p => Panics p
    end
    = match ended (os "vagrant" args) with
      | Exited code =>
          if decide (code = 0%Z) then Returns None
          else Returns (Some (ExitError "vagrant" code (stderr (os "vagrant" args))))
      | NotRun reason => Panics (PanicMessage ("unexpected error: " +:+ reason))
      end) as H.
  { intros args. unfold New, Execute, ShellRunner, cmdRun, binary. simpl.
    destruct (ended (os "vagrant" args)) as [code|reason]; [|done].
    by destruct (decide (code = 0%Z)). }
  intros result. repeat split.
  - unfold Up. rewrite lifecycle_result. apply H.
  - unfold Halt. rewrite lifecycle_result. apply H.
  - unfold Destroy. rewrite lifecycle_result. apply H.
Qed.
